(** * Sliding-window median: a model of [probability/windowed_median.cpp]

    The class [probability::WindowedMedian] keeps the last [_windowSize]
    values of a stream in a [std::list<int>], the same values in a
    [std::multiset<int>], and an iterator [_itMedian] into the multiset that
    is moved by one step on every insertion and every eviction.

    The development below embeds the class in Rocq:
    - [Float32] is IEEE 754 binary32, the type [float] of the source, on top
      of the executable specification [SpecFloat] of the standard library;
    - [multiset] is [std::multiset<int>] with node identities, so that an
      iterator keeps denoting the same node across insertions and erasures
      elsewhere, and is lost when its own node is erased;
    - [WindowedMedian] holds the four data members and the methods, written
      in a state monad whose failure is the undefined behaviour of C++.  *)

From Stdlib Require Import ZArith List Bool Lia ZifyNat Permutation.
From Stdlib Require Import Sorting.Sorted Sorting.Mergesort Orders.
From Stdlib Require Import SpecFloat.
Import ListNotations.

Local Open Scope Z_scope.

(** ** Machine integers

    [int] is 32 bits wide and [size_t] 64 bits wide (LP64).  Values of type
    [int] are carried as [Z]; the only arithmetic the class performs on them
    is comparison, and the conversion to [size_t] of [_windowSize]. *)

Definition INT_MIN : Z := - 2 ^ 31.
Definition INT_MAX : Z := 2 ^ 31 - 1.

(** Conversion of a signed value to [size_t]: reduction modulo [2^64]. *)
Definition to_size_t (z : Z) : Z := z mod 2 ^ 64.

(** ** binary32 *)

Module Float32.

Definition prec : Z := 24.
Definition emax : Z := 128.

Definition float : Type := spec_float.

(** Conversion [int -> float], rounding to nearest, ties to even. *)
Definition of_int (z : Z) : float := binary_normalize prec emax z 0 false.

(** The literal [0.5f], that is [2^23 * 2^-24]. *)
Definition half : float := S754_finite false 8388608 (-24).

Definition mul (x y : float) : float := SFmul prec emax x y.
Definition add (x y : float) : float := SFadd prec emax x y.

(** The comparison [==] of two floats. *)
Definition eqb (x y : float) : bool := SFeqb x y.

End Float32.

(** ** Outcomes of a call

    No statement of the class throws, and undefined behaviour (reading
    through an iterator that denotes no element, erasing [end()]) is an
    outcome of its own.  [Aborted] is a failed [assert]. *)

Inductive exception : Type :=
| InvalidArgument
| EmptyStateError.

Inductive outcome (A : Type) : Type :=
| Returns (a : A)
| Throws (e : exception)
| Aborted
| Undefined.

Arguments Returns {A} a.
Arguments Throws {A} e.
Arguments Aborted {A}.
Arguments Undefined {A}.

(** ** std::multiset<int>

    The container is the list of its nodes in sorted order.  Every node
    carries an identity that is never reused; an iterator is the identity of
    the node it denotes. *)

Module multiset.

Record node : Type := mkNode { node_id : nat; key : Z }.

Record t : Type := mkSet { nodes : list node; fresh : nat }.

Inductive iterator : Type :=
| Singular            (* default-constructed, denotes nothing *)
| At (id : nat)       (* the node of this identity *)
| End.                (* past-the-end *)

Definition empty : t := mkSet [] 0.

Definition size (s : t) : Z := Z.of_nat (length (nodes s)).

(** Insertion goes to the upper bound of the range of equal keys. *)
Fixpoint ins_upper (x : node) (l : list node) : list node :=
  match l with
  | [] => [x]
  | y :: l' => if key x <? key y then x :: l else y :: ins_upper x l'
  end.

Definition insert (v : Z) (s : t) : t :=
  mkSet (ins_upper (mkNode (fresh s) v) (nodes s)) (S (fresh s)).

Definition begin (s : t) : iterator :=
  match nodes s with
  | [] => End
  | x :: _ => At (node_id x)
  end.

(** Sorted index of the node of a given identity. *)
Fixpoint rank (id : nat) (l : list node) : option nat :=
  match l with
  | [] => None
  | x :: l' => if Nat.eqb (node_id x) id then Some 0%nat
               else option_map S (rank id l')
  end.

Definition node_at (i : nat) (s : t) : option node := nth_error (nodes s) i.

(** [*it]: defined only when [it] denotes a node of the container. *)
Definition deref (it : iterator) (s : t) : option Z :=
  match it with
  | At id =>
      match rank id (nodes s) with
      | Some i => option_map key (node_at i s)
      | None => None
      end
  | _ => None
  end.

(** [++it] and [std::next(it)]. *)
Definition next (it : iterator) (s : t) : option iterator :=
  match it with
  | At id =>
      match rank id (nodes s) with
      | Some i =>
          Some (match node_at (S i) s with
                | Some y => At (node_id y)
                | None => End
                end)
      | None => None
      end
  | _ => None
  end.

(** [--it]: undefined on [begin()]. *)
Definition prev (it : iterator) (s : t) : option iterator :=
  match it with
  | At id =>
      match rank id (nodes s) with
      | Some (S i) => option_map (fun y => At (node_id y)) (node_at i s)
      | _ => None
      end
  | End =>
      match length (nodes s) with
      | S i => option_map (fun y => At (node_id y)) (node_at i s)
      | O => None
      end
  | Singular => None
  end.

(** First node whose key is not less than [v]. *)
Fixpoint lower_bound (v : Z) (l : list node) : option node :=
  match l with
  | [] => None
  | x :: l' => if key x <? v then lower_bound v l' else Some x
  end.

(** [find(v)]: the first node of key [v], or [end()].  The library walks to
    the lower bound, and [eraseFromSorted] counts on it: "Find the (first)
    position of the value we want to erase". *)
Definition find (v : Z) (s : t) : iterator :=
  match lower_bound v (nodes s) with
  | Some x => if v <? key x then End else At (node_id x)
  | None => End
  end.

Fixpoint unlink (id : nat) (l : list node) : list node :=
  match l with
  | [] => []
  | x :: l' => if Nat.eqb (node_id x) id then l' else x :: unlink id l'
  end.

(** [erase(it)]: undefined unless [it] denotes a node of the container. *)
Definition erase (it : iterator) (s : t) : option t :=
  match it with
  | At id =>
      match rank id (nodes s) with
      | Some _ => Some (mkSet (unlink id (nodes s)) (fresh s))
      | None => None
      end
  | _ => None
  end.

Definition keys (s : t) : list Z := map key (nodes s).

(** *** Predicates on containers *)

Definition ids (l : list node) : list nat := map node_id l.
Definition key_le (x y : node) : Prop := key x <= key y.

(** The well-formed containers: identities are distinct and below the next
    fresh one, keys are in non-decreasing order. *)
Definition well_formed (s : t) : Prop :=
  NoDup (ids (nodes s)) /\
  Forall (fun x => (node_id x < fresh s)%nat) (nodes s) /\
  StronglySorted key_le (nodes s).

(** [denotes l id i c]: the identity [id] is that of the node [c], found at
    sorted index [i] of [l]. *)
Definition denotes (l : list node) (id i : nat) (c : node) : Prop :=
  rank id l = Some i /\ nth_error l i = Some c.

End multiset.

(** ** std::list<int>::sort *)

Module ZLeb := OTF_to_TTLB BinInt.Z.
Module ZSort := Sort ZLeb.

(** ** The class *)

Module WindowedMedian.

Record t : Type := mk {
  _windowSize : Z;
  _window : list Z;
  _sortedValues : multiset.t;
  _itMedian : multiset.iterator
}.

(** Methods run in a state monad over the object. *)
Definition M (A : Type) : Type := t -> outcome (A * t).

Definition ret {A} (a : A) : M A := fun s => Returns (a, s).

Definition bind {A B} (c : M A) (k : A -> M B) : M B :=
  fun s =>
    match c s with
    | Returns (a, s') => k a s'
    | Throws e => Throws e
    | Aborted => Aborted
    | Undefined => Undefined
    end.

Declare Scope method_scope.
Delimit Scope method_scope with method.
Notation "x <- c ;; k" := (bind c (fun x => k))
  (at level 61, c at next level, right associativity) : method_scope.
Notation "c ;; k" := (bind c (fun _ => k))
  (at level 61, right associativity) : method_scope.
Local Open Scope method_scope.

Definition this : M t := fun s => Returns (s, s).

Definition abort {A} : M A := fun _ => Aborted.

(** A partial operation of the library: undefined where it has no value. *)
Definition defined {A} (o : option A) : M A :=
  fun s => match o with Some a => Returns (a, s) | None => Undefined end.

Definition set_window (w : list Z) : M unit :=
  fun s => Returns (tt, mk (_windowSize s) w (_sortedValues s) (_itMedian s)).

Definition set_sortedValues (ms : multiset.t) : M unit :=
  fun s => Returns (tt, mk (_windowSize s) (_window s) ms (_itMedian s)).

Definition set_itMedian (it : multiset.iterator) : M unit :=
  fun s => Returns (tt, mk (_windowSize s) (_window s) (_sortedValues s) it).

(** [*_itMedian], [++_itMedian], [--_itMedian]. *)
Definition deref_itMedian : M Z :=
  s <- this ;; defined (multiset.deref (_itMedian s) (_sortedValues s)).

Definition incr_itMedian : M unit :=
  s <- this ;;
  it <- defined (multiset.next (_itMedian s) (_sortedValues s)) ;;
  set_itMedian it.

Definition decr_itMedian : M unit :=
  s <- this ;;
  it <- defined (multiset.prev (_itMedian s) (_sortedValues s)) ;;
  set_itMedian it.

Definition insertToSorted (value : Z) : M unit :=
  s <- this ;;
  set_sortedValues (multiset.insert value (_sortedValues s)) ;;
  s <- this ;;
  let sz := multiset.size (_sortedValues s) in
  if sz =? 1 then set_itMedian (multiset.begin (_sortedValues s))
  else
    cur <- deref_itMedian ;;
    if (value <? cur) && (sz mod 2 =? 0) then decr_itMedian
    else
      cur <- deref_itMedian ;;
      if (value >=? cur) && negb (sz mod 2 =? 0) then incr_itMedian
      else ret tt.

Definition eraseFromSorted (value : Z) : M unit :=
  s <- this ;;
  let sz := multiset.size (_sortedValues s) in
  (cur <- deref_itMedian ;;
   if (value <=? cur) && (sz mod 2 =? 0) then incr_itMedian
   else
     cur <- deref_itMedian ;;
     if (value >=? cur) && negb (sz mod 2 =? 0) then decr_itMedian
     else ret tt) ;;
  s <- this ;;
  let it := multiset.find value (_sortedValues s) in
  ms <- defined (multiset.erase it (_sortedValues s)) ;;
  set_sortedValues ms.

(** The constructor stores its argument and leaves the rest default
    constructed. *)
Definition WindowedMedian (windowSize : Z) : outcome t :=
  Returns (mk windowSize [] multiset.empty multiset.Singular).

Definition insert (value : Z) : M unit :=
  s <- this ;;
  set_window (_window s ++ [value]) ;;
  insertToSorted value ;;
  s <- this ;;
  if Z.of_nat (length (_window s)) >? to_size_t (_windowSize s) then
    front <- defined (hd_error (_window s)) ;;
    eraseFromSorted front ;;
    s <- this ;;
    set_window (tl (_window s))
  else ret tt.

Definition getMedian : M Float32.float :=
  s <- this ;;
  if negb (multiset.size (_sortedValues s) mod 2 =? 0) then
    cur <- deref_itMedian ;;
    ret (Float32.of_int cur)
  else
    cur <- deref_itMedian ;;
    it <- defined (multiset.next (_itMedian s) (_sortedValues s)) ;;
    nxt <- defined (multiset.deref it (_sortedValues s)) ;;
    ret (Float32.add (Float32.mul Float32.half (Float32.of_int cur))
                     (Float32.mul Float32.half (Float32.of_int nxt))).

Definition getMedianNaive : M Float32.float :=
  s <- this ;;
  let window := ZSort.sort (_window s) in
  let sz := length window in
  median <- defined (nth_error window (sz / 2)%nat) ;;
  if negb (Nat.eqb (sz mod 2)%nat 0%nat) then ret (Float32.of_int median)
  else
    lower <- defined (nth_error window (sz / 2 - 1)%nat) ;;
    ret (Float32.add (Float32.mul Float32.half (Float32.of_int median))
                     (Float32.mul Float32.half (Float32.of_int lower))).

(** A stream of insertions. *)
Fixpoint inserts (vals : list Z) : M unit :=
  match vals with
  | [] => ret tt
  | v :: vals' => insert v ;; inserts vals'
  end.

(** The state after a stream, starting from a fresh object. *)
Definition run (windowSize : Z) (vals : list Z) : outcome t :=
  match WindowedMedian windowSize with
  | Returns s0 =>
      match inserts vals s0 with
      | Returns (_, s) => Returns s
      | Throws e => Throws e
      | Aborted => Aborted
      | Undefined => Undefined
      end
  | Throws e => Throws e
  | Aborted => Aborted
  | Undefined => Undefined
  end.

(** The result of a [const] method, the object left aside. *)
Definition result {A} (c : M A) (s : t) : outcome A :=
  match c s with
  | Returns (a, _) => Returns a
  | Throws e => Throws e
  | Aborted => Aborted
  | Undefined => Undefined
  end.

(** Sorted index of the node the cursor denotes. *)
Definition cursor_rank (s : t) : option nat :=
  match _itMedian s with
  | multiset.At id => multiset.rank id (multiset.nodes (_sortedValues s))
  | _ => None
  end.

(** *** Predicates on objects *)

(** A fresh object, as the constructor leaves it. *)
Definition fresh_object (windowSize : Z) : t :=
  mk windowSize [] multiset.empty multiset.Singular.

(** The size test of [insert], on the window after [push_back]. *)
Definition evicts (s : t) : bool :=
  Z.of_nat (length (_window s)) + 1 >? to_size_t (_windowSize s).

(** The multiset is well formed and holds the bag of values of the window. *)
Definition consistent (s : t) : Prop :=
  multiset.well_formed (_sortedValues s) /\
  Permutation (multiset.keys (_sortedValues s)) (_window s).

(** The cursor multiset.denotes the node at sorted index [(n - 1) / 2]. *)
Definition lower_median (s : t) : Prop :=
  exists id c,
    _itMedian s = multiset.At id /\
    multiset.denotes (multiset.nodes (_sortedValues s)) id
            ((length (multiset.nodes (_sortedValues s)) - 1) / 2) c.

(** The invariant of the class. *)
Definition invariant (s : t) : Prop :=
  consistent s /\ (multiset.nodes (_sortedValues s) = [] \/ lower_median s).

(** *** The methods in closed form *)

(** The move of the cursor after an insertion, and before an erasure. *)
Definition move_after_insert (value cur sz : Z) (it : multiset.iterator)
    (ms : multiset.t) : option multiset.iterator :=
  if (value <? cur) && (sz mod 2 =? 0) then multiset.prev it ms
  else if (value >=? cur) && negb (sz mod 2 =? 0) then multiset.next it ms
  else Some it.

Definition move_before_erase (value cur sz : Z) (it : multiset.iterator)
    (ms : multiset.t) : option multiset.iterator :=
  if (value <=? cur) && (sz mod 2 =? 0) then multiset.next it ms
  else if (value >=? cur) && negb (sz mod 2 =? 0) then multiset.prev it ms
  else Some it.

Definition returns {A B} (o : option A) (k : A -> outcome B) : outcome B :=
  match o with Some a => k a | None => Undefined end.

(** [0.5f * a + 0.5f * b], both operands converted from [int]. *)
Definition mean (a b : Z) : Float32.float :=
  Float32.add (Float32.mul Float32.half (Float32.of_int a))
              (Float32.mul Float32.half (Float32.of_int b)).

End WindowedMedian.

(** ** The test driver of the source file *)

Fixpoint test_loop (vals : list Z) : WindowedMedian.M unit :=
  match vals with
  | [] => WindowedMedian.ret tt
  | val :: vals' =>
      WindowedMedian.bind (WindowedMedian.insert val) (fun _ =>
      WindowedMedian.bind WindowedMedian.getMedian (fun a =>
      WindowedMedian.bind WindowedMedian.getMedianNaive (fun b =>
      if Float32.eqb a b then test_loop vals' else WindowedMedian.abort)))
  end.

Definition test (vals : list Z) (windowSize : Z) : outcome unit :=
  match WindowedMedian.WindowedMedian windowSize with
  | Returns s0 =>
      match test_loop vals s0 with
      | Returns _ => Returns tt
      | Throws e => Throws e
      | Aborted => Aborted
      | Undefined => Undefined
      end
  | Throws e => Throws e
  | Aborted => Aborted
  | Undefined => Undefined
  end.


(** The object a stream leaves behind, for streams that run to their end. *)
Definition state_after (windowSize : Z) (vals : list Z) : WindowedMedian.t :=
  match WindowedMedian.run windowSize vals with
  | Returns s => s
  | _ => WindowedMedian.fresh_object windowSize
  end.

(** The medians after each value of a stream, as [test] reads them. *)
Fixpoint medians_from (vals : list Z) (s : WindowedMedian.t) :
    list (outcome Float32.float) :=
  match vals with
  | [] => []
  | val :: vals' =>
      match WindowedMedian.insert val s with
      | Returns (_, s') =>
          WindowedMedian.result WindowedMedian.getMedian s' :: medians_from vals' s'
      | _ => [Undefined]
      end
  end.

(** [1.5], [8.5], [6.5] and [5.5] are halves of odd integers. *)
Definition halves (z : Z) : Float32.float :=
  Float32.mul Float32.half (Float32.of_int z).

(** The object of window size 2 that has seen [3, 3] and is in the middle of
    [insert(3)]: after [push_back] and [insertToSorted], before the
    eviction. *)
Definition before_eviction : WindowedMedian.t :=
  WindowedMedian.mk 2 [3; 3; 3]
    (multiset.insert 3 (WindowedMedian._sortedValues (state_after 2 [3; 3])))
    (multiset.At 1).

(** Objects that have seen [1, 2, 3] and [1, 2, 3, 4] and evicted nothing. *)
Definition ascending_three : WindowedMedian.t := state_after (-1) [1; 2; 3].
Definition ascending_four : WindowedMedian.t := state_after (-1) [1; 2; 3; 4].

(** ** The random part of [main]

    [main] runs the seven fixed streams and then 92 random cases.  The
    results of [std::rand()] are read from an oracle, [rand k] being the
    result of call number [k]; [RAND_MAX] is the constant of the C library,
    [2147483647] for glibc.  The size [n] and the window size are computed in
    [unsigned] arithmetic, 32 bits wide, the window size is then converted
    to the [int] parameter of [test]. *)

Definition to_unsigned (z : Z) : Z := z mod 2 ^ 32.
Definition to_int (z : Z) : Z :=
  if z mod 2 ^ 32 <? 2 ^ 31 then z mod 2 ^ 32 else z mod 2 ^ 32 - 2 ^ 32.

(** [1 + std::rand() / ((RAND_MAX + 5u) / 20)] *)
Definition draw_count (RAND_MAX r : Z) : Z :=
  to_unsigned (1 + to_unsigned r / (to_unsigned (RAND_MAX + 5) / 20)).

(** [1 + std::rand() / ((RAND_MAX + 3u) / 10)] *)
Definition draw_window (RAND_MAX r : Z) : Z :=
  to_unsigned (1 + to_unsigned r / (to_unsigned (RAND_MAX + 3) / 10)).

(** [rand() - RAND_MAX] *)
Definition draw_value (RAND_MAX r : Z) : Z := r - RAND_MAX.

(** The stream of one random case whose first call of [rand] is call [k]. *)
Definition random_vals (RAND_MAX : Z) (rand : nat -> Z) (k : nat) : list Z :=
  map (fun i => draw_value RAND_MAX (rand (S (S k) + i)%nat))
      (seq 0 (Z.to_nat (draw_count RAND_MAX (rand k)))).

Definition random_windowSize (RAND_MAX : Z) (rand : nat -> Z) (k : nat) : Z :=
  to_int (draw_window RAND_MAX (rand (S k))).

(** The body of the loop, and the number of the next call of [rand]. *)
Definition random_case (RAND_MAX : Z) (rand : nat -> Z) (k : nat) : outcome unit * nat :=
  (test (random_vals RAND_MAX rand k) (random_windowSize RAND_MAX rand k),
   (S (S k) + Z.to_nat (draw_count RAND_MAX (rand k)))%nat).

(** The number of the first call of [rand] in the random case number [i],
    cases and calls counted from 0: where the case before it stopped. *)
Fixpoint case_start (RAND_MAX : Z) (rand : nat -> Z) (i : nat) : nat :=
  match i with
  | O => 0%nat
  | S i' => snd (random_case RAND_MAX rand (case_start RAND_MAX rand i'))
  end.

Fixpoint random_cases (RAND_MAX : Z) (rand : nat -> Z) (count k : nat) : outcome unit :=
  match count with
  | O => Returns tt
  | S count' =>
      match random_case RAND_MAX rand k with
      | (Returns _, k') => random_cases RAND_MAX rand count' k'
      | (o, _) => o
      end
  end.

Definition fixed_streams : list (list Z * Z) :=
  [([1; 2; 3; 4; 5; 6; 7; 8; 9], 3);
   ([9; 8; 7; 6; 5; 4; 3; 2; 1], 3);
   ([9; 8; 7; 6; 5; 4; 5; 6], 4);
   ([3; 3; 3; 3; 3; 3; 3; 3; 3], 3);
   ([3; 3; 3; 3; -7; 3; 3; 3; 3], 3);
   ([4; 3; 3; -5; 7; 1; 3; 4; 5], 5);
   ([470211272; 101027544; 1457850878; 1458777923; 2007237709; 823564440;
     1115438165; 1784484492; 74243042; 114807987], 6)].

Fixpoint tests (cases : list (list Z * Z)) : outcome unit :=
  match cases with
  | [] => Returns tt
  | (vals, windowSize) :: cases' =>
      match test vals windowSize with
      | Returns _ => tests cases'
      | o => o
      end
  end.

Definition main (RAND_MAX : Z) (rand : nat -> Z) : outcome Z :=
  match tests fixed_streams with
  | Returns _ =>
      match random_cases RAND_MAX rand 92 0 with
      | Returns _ => Returns 0
      | Throws e => Throws e
      | Aborted => Aborted
      | Undefined => Undefined
      end
  | Throws e => Throws e
  | Aborted => Aborted
  | Undefined => Undefined
  end.

(** The value of [RAND_MAX] in glibc, and two oracles: one that always
    answers the same, one that answers from a list and then 0. *)
Definition GLIBC_RAND_MAX : Z := 2147483647.
Definition constant_rand (r : Z) : nat -> Z := fun _ => r.
Definition scripted_rand (rs : list Z) : nat -> Z := fun k => nth k rs 0.

(** ** Predicates used further down *)

(** A float that is a zero or a finite number. *)
Definition finite_or_zero (x : Float32.float) : Prop :=
  match x with
  | S754_zero _ | S754_finite _ _ _ => True
  | _ => False
  end.

(** A float that is a zero or a normal number: a mantissa of 24 digits and
    an exponent within the range of the format. *)
Definition normal_or_zero (x : Float32.float) : Prop :=
  match x with
  | S754_zero _ => True
  | S754_finite _ m e => Zpos (digits2_pos m) = 24 /\ -149 <= e <= 104
  | _ => False
  end.

(** What makes the evictions of a stream harmless: an odd window size, or
    no value that occurs twice. *)
Definition eviction_safe (s : WindowedMedian.t) (vals : list Z) : Prop :=
  (WindowedMedian._windowSize s mod 2 = 1 /\
   Z.of_nat (length (WindowedMedian._window s)) <= WindowedMedian._windowSize s) \/
  NoDup (WindowedMedian._window s ++ vals).

(** * Facts about the container model *)

Module multiset_facts.
Import multiset.

Lemma rank_Some_nth (id : nat) (l : list node) (i : nat) :
  rank id l = Some i -> exists x, nth_error l i = Some x /\ node_id x = id.
Proof.
  revert i; induction l as [|y l IH]; intros i; simpl; [discriminate|].
  destruct (Nat.eqb_spec (node_id y) id) as [e|ne].
  - intros [= <-]; exists y; auto.
  - destruct (rank id l) as [j|]; simpl; [|discriminate].
    intros [= <-]; destruct (IH j eq_refl) as (x & Hx & Hid); exists x; auto.
Qed.

Lemma rank_In (id : nat) (l : list node) (i : nat) :
  rank id l = Some i -> In id (ids l).
Proof.
  intros H; destruct (rank_Some_nth _ _ _ H) as (x & Hx & <-).
  apply in_map, (nth_error_In _ _ Hx).
Qed.


Lemma nth_rank (l : list node) (i : nat) (x : node) :
  NoDup (ids l) -> nth_error l i = Some x -> rank (node_id x) l = Some i.
Proof.
  revert i; induction l as [|y l IH]; intros [|i] ND; simpl; try discriminate.
  - intros [= ->]; now rewrite Nat.eqb_refl.
  - intros H; inversion ND as [|? ? Hy ND']; subst.
    destruct (Nat.eqb_spec (node_id y) (node_id x)) as [e|ne].
    + exfalso; apply Hy; rewrite e; apply in_map, (nth_error_In _ _ H).
    + now rewrite (IH i ND' H).
Qed.

Lemma denotes_id (l : list node) (id i : nat) (c : node) :
  denotes l id i c -> node_id c = id.
Proof.
  intros [Hr Hn]; destruct (rank_Some_nth _ _ _ Hr) as (x & Hx & Hid); congruence.
Qed.

Lemma denotes_lt (l : list node) (id i : nat) (c : node) :
  denotes l id i c -> (i < length l)%nat.
Proof. intros [_ Hn]; apply nth_error_Some; congruence. Qed.

Lemma rank_denotes (l : list node) (id i : nat) :
  rank id l = Some i -> exists c, denotes l id i c.
Proof.
  intros H; destruct (rank_Some_nth _ _ _ H) as (x & Hx & _); exists x; split; auto.
Qed.

Lemma nth_denotes (l : list node) (i : nat) (x : node) :
  NoDup (ids l) -> nth_error l i = Some x -> denotes l (node_id x) i x.
Proof. intros ND H; split; auto using nth_rank. Qed.

(** Keys grow with the sorted index. *)
Lemma sorted_nth_le (l : list node) (i j : nat) (x y : node) :
  StronglySorted key_le l -> (i <= j)%nat ->
  nth_error l i = Some x -> nth_error l j = Some y -> key x <= key y.
Proof.
  intros HS; revert i j; induction HS as [|a l HS IH Ha]; intros i j Hij Hi Hj.
  - destruct i; discriminate.
  - destruct i as [|i], j as [|j]; simpl in *; try lia.
    + injection Hi as <-; injection Hj as <-; lia.
    + injection Hi as <-. rewrite Forall_forall in Ha.
      apply Ha, (nth_error_In _ _ Hj).
    + apply (IH i j); auto; lia.
Qed.

(** *** Insertion *)

Lemma ins_upper_perm (x : node) (l : list node) :
  Permutation (x :: l) (ins_upper x l).
Proof.
  induction l as [|y l IH]; simpl; [reflexivity|].
  destruct (key x <? key y); [reflexivity|].
  rewrite perm_swap; now constructor.
Qed.

Lemma ins_upper_length (x : node) (l : list node) :
  length (ins_upper x l) = S (length l).
Proof. now rewrite <- (Permutation_length (ins_upper_perm x l)). Qed.

Lemma ins_upper_sorted (x : node) (l : list node) :
  StronglySorted key_le l -> StronglySorted key_le (ins_upper x l).
Proof.
  induction 1 as [|y l HS IH Hy]; simpl; [repeat constructor|].
  destruct (Z.ltb_spec (key x) (key y)) as [lt|ge].
  - constructor; [now constructor|].
    constructor; [unfold key_le; lia|].
    eapply Forall_impl; [|exact Hy]; unfold key_le; intros; lia.
  - constructor; [assumption|].
    apply (Permutation_Forall (ins_upper_perm x l)).
    constructor; [unfold key_le; lia | assumption].
Qed.

Lemma ins_upper_NoDup (x : node) (l : list node) :
  NoDup (ids l) -> ~ In (node_id x) (ids l) -> NoDup (ids (ins_upper x l)).
Proof.
  intros ND Hx.
  apply (Permutation_NoDup (Permutation_map node_id (ins_upper_perm x l))).
  now constructor.
Qed.

(** An iterator survives an insertion: its node moves up by one place when
    the new key is smaller than its own, and stays in place otherwise,
    because equal keys are added after the existing ones. *)
Lemma ins_upper_denotes (x : node) (l : list node) (id i : nat) (c : node) :
  StronglySorted key_le l -> denotes l id i c -> node_id x <> id ->
  denotes (ins_upper x l) id (if key x <? key c then S i else i) c.
Proof.
  intros HS; revert i; induction HS as [|y l HS IH Hy]; intros i [Hr Hn] Hx.
  - discriminate.
  - simpl in Hr. destruct (Nat.eqb_spec (node_id y) id) as [e|ne].
    + injection Hr as <-. simpl in Hn; injection Hn as <-.
      simpl. destruct (key x <? key y); split; simpl; auto.
      * apply Nat.eqb_neq in Hx; rewrite Hx. apply Nat.eqb_eq in e; now rewrite e.
      * apply Nat.eqb_eq in e; now rewrite e.
    + destruct (rank id l) as [i'|] eqn:Hr'; simpl in Hr; [|discriminate].
      injection Hr as <-. simpl in Hn.
      assert (Hyc : key y <= key c).
      { rewrite Forall_forall in Hy; apply Hy, (nth_error_In _ _ Hn). }
      apply Nat.eqb_neq in ne, Hx.
      simpl. destruct (Z.ltb_spec (key x) (key y)) as [lt|ge].
      * destruct (Z.ltb_spec (key x) (key c)); [|lia].
        split; simpl; [now rewrite Hx, ne, Hr'|assumption].
      * destruct (IH i' (conj Hr' Hn)) as [Hr2 Hn2]; [now apply Nat.eqb_neq|].
        split; simpl.
        -- rewrite ne, Hr2; simpl. now destruct (key x <? key c).
        -- now destruct (key x <? key c).
Qed.

(** *** Lookup by key *)

(** In a sorted list, [lower_bound] reaches the first node of key [v]. *)
Lemma lower_bound_first (v : Z) (l : list node) :
  StronglySorted key_le l -> In v (map key l) ->
  exists p x, lower_bound v l = Some x /\ key x = v /\ nth_error l p = Some x /\
    forall j y, (j < p)%nat -> nth_error l j = Some y -> key y < v.
Proof.
  induction 1 as [|y l HS IH Hy]; simpl; [tauto|]; intros Hin.
  destruct (Z.ltb_spec (key y) v) as [lt|ge].
  - destruct Hin as [e|Hin]; [lia|].
    destruct (IH Hin) as (p & x & Hlb & Hk & Hn & Hfirst).
    exists (S p), x; repeat split; auto.
    intros [|j] z Hj Hz; simpl in Hz; [congruence|].
    apply (Hfirst j); auto; lia.
  - exists 0%nat, y; repeat split; auto; [|intros; lia].
    destruct Hin as [e|Hin]; [assumption|].
    apply in_map_iff in Hin; destruct Hin as (z & Hz & Hin).
    rewrite Forall_forall in Hy; specialize (Hy z Hin); unfold key_le in Hy; lia.
Qed.

(** *** Erasure *)

Lemma unlink_incl (rid : nat) (l : list node) (z : node) :
  In z (unlink rid l) -> In z l.
Proof.
  induction l as [|y l IH]; simpl; [tauto|].
  destruct (Nat.eqb (node_id y) rid); simpl; tauto.
Qed.

Lemma unlink_perm (rid : nat) (l : list node) (p : nat) (x : node) :
  denotes l rid p x -> Permutation l (x :: unlink rid l).
Proof.
  revert p; induction l as [|y l IH]; intros p [Hr Hn]; [discriminate|].
  simpl in *. destruct (Nat.eqb (node_id y) rid).
  - injection Hr as <-; simpl in Hn; injection Hn as <-; reflexivity.
  - destruct (rank rid l) as [p'|] eqn:Hr'; simpl in Hr; [|discriminate].
    injection Hr as <-; simpl in Hn.
    rewrite perm_swap; constructor; apply (IH p'); split; auto.
Qed.

Lemma unlink_sorted (rid : nat) (l : list node) :
  StronglySorted key_le l -> StronglySorted key_le (unlink rid l).
Proof.
  induction 1 as [|y l HS IH Hy]; simpl; [constructor|].
  destruct (Nat.eqb (node_id y) rid); [assumption|].
  constructor; [assumption|].
  rewrite Forall_forall in *; intros z Hz; apply Hy, (unlink_incl _ _ _ Hz).
Qed.

Lemma unlink_NoDup (rid : nat) (l : list node) :
  NoDup (ids l) -> NoDup (ids (unlink rid l)).
Proof.
  induction l as [|y l IH]; simpl; [auto|]; intros ND.
  inversion ND as [|? ? Hy ND']; subst.
  destruct (Nat.eqb (node_id y) rid); [assumption|].
  simpl; constructor; [|auto].
  intros Hin; apply Hy. unfold ids in *; rewrite in_map_iff in *.
  destruct Hin as (z & Hz & Hin); exists z; split; eauto using unlink_incl.
Qed.


(** An iterator survives the erasure of another node: its node moves down
    by one place when the erased node was before it. *)
Lemma unlink_denotes (rid : nat) (l : list node) (id i p : nat) (c : node) :
  denotes l id i c -> rank rid l = Some p -> id <> rid ->
  denotes (unlink rid l) id (if (p <? i)%nat then pred i else i) c.
Proof.
  revert i p; induction l as [|y l IH]; intros i p [Hr Hn] Hp Hne; [discriminate|].
  simpl in Hr, Hp |- *.
  destruct (Nat.eqb_spec (node_id y) rid) as [e|ne].
  - injection Hp as <-.
    destruct (Nat.eqb_spec (node_id y) id) as [e'|ne']; [congruence|].
    destruct (rank id l) as [i'|] eqn:Hr'; simpl in Hr; [|discriminate].
    injection Hr as <-; simpl in Hn. split; simpl; assumption.
  - destruct (rank rid l) as [p'|] eqn:Hp'; simpl in Hp; [|discriminate].
    injection Hp as <-.
    destruct (Nat.eqb_spec (node_id y) id) as [e'|ne'].
    + injection Hr as <-; simpl in Hn; injection Hn as <-.
      split; simpl; auto. apply Nat.eqb_eq in e'; now rewrite e'.
    + destruct (rank id l) as [i'|] eqn:Hr'; simpl in Hr; [|discriminate].
      injection Hr as <-; simpl in Hn.
      destruct (IH i' p' (conj Hr' Hn) eq_refl Hne) as [Hr2 Hn2].
      apply Nat.eqb_neq in ne'.
      change (S p' <? S i')%nat with (p' <? i')%nat.
      destruct (Nat.ltb_spec p' i') as [lt|ge].
      * destruct i' as [|i'']; [lia|]. simpl in *.
        split; simpl; [now rewrite ne', Hr2 | assumption].
      * split; simpl; [now rewrite ne', Hr2 | assumption].
Qed.

(** *** The container operations *)

Lemma empty_well_formed : well_formed empty.
Proof. repeat split; simpl; constructor. Qed.

Lemma insert_well_formed (v : Z) (s : t) :
  well_formed s -> well_formed (insert v s).
Proof.
  intros (ND & Hf & HS); repeat split; simpl.
  - apply ins_upper_NoDup; [assumption|]; simpl.
    intros Hin; apply in_map_iff in Hin; destruct Hin as (z & Hz & Hin).
    rewrite Forall_forall in Hf; specialize (Hf z Hin); lia.
  - apply (Permutation_Forall (ins_upper_perm _ _)).
    constructor; simpl; [lia|].
    eapply Forall_impl; [|exact Hf]; simpl; intros; lia.
  - now apply ins_upper_sorted.
Qed.

Lemma insert_keys (v : Z) (s : t) : Permutation (v :: keys s) (keys (insert v s)).
Proof. apply (Permutation_map key (ins_upper_perm (mkNode (fresh s) v) (nodes s))). Qed.

Lemma insert_length (v : Z) (s : t) :
  length (nodes (insert v s)) = S (length (nodes s)).
Proof. apply ins_upper_length. Qed.

Lemma insert_denotes (v : Z) (s : t) (id i : nat) (c : node) :
  well_formed s -> denotes (nodes s) id i c ->
  denotes (nodes (insert v s)) id (if v <? key c then S i else i) c.
Proof.
  intros (ND & Hf & HS) Hd.
  apply (ins_upper_denotes (mkNode (fresh s) v)); auto; simpl.
  destruct Hd as [Hr Hn]. destruct (rank_Some_nth _ _ _ Hr) as (x & Hx & <-).
  rewrite Forall_forall in Hf; specialize (Hf x (nth_error_In _ _ Hx)); lia.
Qed.

(** [find] followed by [erase] removes the first node of the key, provided
    the key is present. *)
Lemma find_erase (v : Z) (s : t) :
  well_formed s -> In v (keys s) ->
  exists x p,
    find v s = At (node_id x) /\
    denotes (nodes s) (node_id x) p x /\ key x = v /\
    (forall j y, (j < p)%nat -> nth_error (nodes s) j = Some y -> key y < v) /\
    erase (At (node_id x)) s = Some (mkSet (unlink (node_id x) (nodes s)) (fresh s)).
Proof.
  intros (ND & Hf & HS) Hin.
  destruct (lower_bound_first v (nodes s) HS Hin) as (p & x & Hlb & Hk & Hn & Hfirst).
  exists x, p. pose proof (nth_denotes _ _ _ ND Hn) as Hd.
  unfold find, erase; rewrite Hlb, (proj1 Hd), Hk, Z.ltb_irrefl; auto.
Qed.

Lemma erase_well_formed (rid : nat) (s : t) :
  well_formed s -> well_formed (mkSet (unlink rid (nodes s)) (fresh s)).
Proof.
  intros (ND & Hf & HS); repeat split; simpl.
  - now apply unlink_NoDup.
  - rewrite Forall_forall in *; intros z Hz; apply Hf, (unlink_incl _ _ _ Hz).
  - now apply unlink_sorted.
Qed.

Lemma erase_keys (rid : nat) (s : t) (p : nat) (x : node) :
  denotes (nodes s) rid p x ->
  Permutation (keys s) (key x :: map key (unlink rid (nodes s))).
Proof. intros Hd; apply (Permutation_map key (unlink_perm _ _ _ _ Hd)). Qed.

(** *** Iterators *)

Lemma nth_error_defined {A} (l : list A) (i : nat) :
  (i < length l)%nat -> exists x, nth_error l i = Some x.
Proof.
  intros H; destruct (nth_error l i) eqn:E; eauto.
  apply nth_error_None in E; lia.
Qed.

Lemma deref_denotes (s : t) (id i : nat) (c : node) :
  denotes (nodes s) id i c -> deref (At id) s = Some (key c).
Proof. intros [Hr Hn]; unfold deref, node_at; now rewrite Hr, Hn. Qed.

Lemma next_denotes (s : t) (id i : nat) (c d : node) :
  NoDup (ids (nodes s)) -> denotes (nodes s) id i c ->
  nth_error (nodes s) (S i) = Some d ->
  next (At id) s = Some (At (node_id d)) /\ denotes (nodes s) (node_id d) (S i) d.
Proof.
  intros ND [Hr Hn] Hd; unfold next, node_at; rewrite Hr, Hd.
  auto using nth_denotes.
Qed.

Lemma prev_denotes (s : t) (id i : nat) (c b : node) :
  NoDup (ids (nodes s)) -> denotes (nodes s) id (S i) c ->
  nth_error (nodes s) i = Some b ->
  prev (At id) s = Some (At (node_id b)) /\ denotes (nodes s) (node_id b) i b.
Proof.
  intros ND [Hr Hn] Hb; unfold prev, node_at; rewrite Hr, Hb.
  auto using nth_denotes.
Qed.

(** Two identities at different places are different. *)
Lemma denotes_neq (l : list node) (id id' i j : nat) (c d : node) :
  denotes l id i c -> denotes l id' j d -> i <> j -> id <> id'.
Proof. intros [Hr _] [Hr' _] Hij ->; congruence. Qed.

End multiset_facts.

(** * Facts about the class *)

Module WindowedMedian_facts.
Import multiset multiset_facts WindowedMedian.

(** ** The methods as functions of the object

    Each method is first put in closed form over the container operations;
    the equations hold by unfolding the monad. *)

Ltac run_method :=
  unfold insert, insertToSorted, eraseFromSorted, getMedian, getMedianNaive,
    incr_itMedian, decr_itMedian, deref_itMedian,
    set_itMedian, set_sortedValues, set_window, defined, this, ret, bind;
  simpl.

Ltac split_cases :=
  repeat first
    [ reflexivity
    | match goal with
      | |- context [if ?b then _ else _] => destruct b eqn:?; simpl
      | |- context [match ?o with Some _ => _ | None => _ end] =>
          destruct o eqn:?; simpl
      end ].

Lemma insertToSorted_eq (v : Z) (s : t) :
  insertToSorted v s =
  let ms := multiset.insert v (_sortedValues s) in
  if multiset.size ms =? 1
  then Returns (tt, mk (_windowSize s) (_window s) ms (multiset.begin ms))
  else
    returns (multiset.deref (_itMedian s) ms) (fun cur =>
    returns (move_after_insert v cur (multiset.size ms) (_itMedian s) ms) (fun it =>
    Returns (tt, mk (_windowSize s) (_window s) ms it))).
Proof. unfold returns, move_after_insert; run_method; split_cases; congruence. Qed.

Lemma eraseFromSorted_eq (v : Z) (s : t) :
  eraseFromSorted v s =
  let ms := _sortedValues s in
  returns (multiset.deref (_itMedian s) ms) (fun cur =>
  returns (move_before_erase v cur (multiset.size ms) (_itMedian s) ms) (fun it =>
  returns (multiset.erase (multiset.find v ms) ms) (fun ms' =>
  Returns (tt, mk (_windowSize s) (_window s) ms' it)))).
Proof. unfold returns, move_before_erase; run_method; split_cases; congruence. Qed.

Lemma insert_eq (v : Z) (s : t) :
  insert v s =
  match insertToSorted v (mk (_windowSize s) (_window s ++ [v])
                             (_sortedValues s) (_itMedian s)) with
  | Returns (_, s1) =>
      if Z.of_nat (length (_window s1)) >? to_size_t (_windowSize s1) then
        returns (hd_error (_window s1)) (fun front =>
        match eraseFromSorted front s1 with
        | Returns (_, s2) =>
            Returns (tt, mk (_windowSize s2) (tl (_window s2))
                            (_sortedValues s2) (_itMedian s2))
        | Throws e => Throws e
        | Aborted => Aborted
        | Undefined => Undefined
        end)
      else Returns (tt, s1)
  | Throws e => Throws e
  | Aborted => Aborted
  | Undefined => Undefined
  end.
Proof.
  unfold insert, bind at 1 2, this at 1, set_window at 1; simpl.
  unfold bind at 1.
  destruct (insertToSorted v _) as [[u s1]| | |]; try reflexivity.
  unfold bind at 1, this at 1.
  destruct (_ >? _); [|reflexivity].
  unfold bind at 1, defined, returns.
  destruct (hd_error _); [|reflexivity].
  unfold bind at 1. destruct (eraseFromSorted z s1) as [[u' s2]| | |]; reflexivity.
Qed.

Lemma bind_Returns_inv {A B} (c : M A) (k : A -> M B) (s s2 : t) (b : B) :
  bind c k s = Returns (b, s2) ->
  exists a s1, c s = Returns (a, s1) /\ k a s1 = Returns (b, s2).
Proof.
  unfold bind; destruct (c s) as [[a s1]| | |]; try discriminate; eauto.
Qed.

(** ** What the methods do to the containers

    Whatever the cursor does, a call that returns has changed the window
    and the multiset in one way only. *)

Lemma insertToSorted_frame (v : Z) (s s' : t) (u : unit) :
  insertToSorted v s = Returns (u, s') ->
  exists it,
    s' = mk (_windowSize s) (_window s) (multiset.insert v (_sortedValues s)) it.
Proof.
  rewrite insertToSorted_eq; unfold returns; simpl.
  destruct (_ =? 1); [intros [= <- <-]; eauto|].
  destruct (multiset.deref _ _); [|discriminate].
  destruct (move_after_insert _ _ _ _ _); [|discriminate].
  intros [= <- <-]; eauto.
Qed.

Lemma eraseFromSorted_frame (v : Z) (s s' : t) (u : unit) :
  eraseFromSorted v s = Returns (u, s') ->
  exists it ms,
    multiset.erase (multiset.find v (_sortedValues s)) (_sortedValues s) = Some ms /\
    s' = mk (_windowSize s) (_window s) ms it.
Proof.
  rewrite eraseFromSorted_eq; unfold returns; simpl.
  destruct (multiset.deref _ _); [|discriminate].
  destruct (move_before_erase _ _ _ _ _); [|discriminate].
  destruct (multiset.erase _ _); [|discriminate].
  intros [= <- <-]; eauto.
Qed.

Lemma insert_frame (v : Z) (s s' : t) (u : unit) :
  insert v s = Returns (u, s') ->
  let ms := multiset.insert v (_sortedValues s) in
  exists it,
    if evicts s then
      exists front ms',
        hd_error (_window s ++ [v]) = Some front /\
        multiset.erase (multiset.find front ms) ms = Some ms' /\
        s' = mk (_windowSize s) (tl (_window s ++ [v])) ms' it
    else s' = mk (_windowSize s) (_window s ++ [v]) ms it.
Proof.
  rewrite insert_eq.
  destruct (insertToSorted v _) as [[u1 s1]| | |] eqn:H1; try discriminate.
  apply insertToSorted_frame in H1; destruct H1 as (it1 & ->); simpl.
  unfold evicts. rewrite length_app, Nat2Z.inj_add; simpl.
  destruct (_ >? _).
  - unfold returns. destruct (hd_error _) as [front|]; [|discriminate].
    destruct (eraseFromSorted front _) as [[u2 s2]| | |] eqn:H2; try discriminate.
    apply eraseFromSorted_frame in H2; destruct H2 as (it2 & ms' & He & ->); simpl in *.
    intros [= <- <-]; exists it2, front, ms'; auto.
  - intros [= <- <-]; eauto.
Qed.

(** ** The container invariant *)

Lemma to_size_t_small (z : Z) : 0 <= z <= INT_MAX -> to_size_t z = z.
Proof. unfold INT_MAX, to_size_t; intros H; apply Z.mod_small; lia. Qed.

Lemma insert_consistent (v : Z) (s s' : t) (u : unit) :
  consistent s -> insert v s = Returns (u, s') ->
  consistent s' /\ _windowSize s' = _windowSize s /\
  _window s' = (if evicts s then tl (_window s ++ [v]) else _window s ++ [v]).
Proof.
  intros [Hwf Hperm] H. apply insert_frame in H; destruct H as (it & H).
  pose proof (insert_well_formed v _ Hwf) as Hwf1.
  assert (Hperm1 : Permutation (multiset.keys (multiset.insert v (_sortedValues s)))
                              (_window s ++ [v])).
  { rewrite <- insert_keys, <- Permutation_cons_append; now constructor. }
  destruct (evicts s).
  - destruct H as (front & ms' & Hfront & He & ->); simpl.
    assert (Hin : In front (multiset.keys (multiset.insert v (_sortedValues s)))).
    { apply (Permutation_in _ (Permutation_sym Hperm1)).
      destruct (_window s ++ [v]); [discriminate|]; injection Hfront as ->; now left. }
    destruct (find_erase _ _ Hwf1 Hin) as (x & p & Hfind & Hd & Hk & _ & He').
    rewrite Hfind, He' in He; injection He as <-.
    split; [split|split; reflexivity].
    { exact (erase_well_formed _ _ Hwf1). }
    unfold multiset.keys; simpl.
    apply (Permutation_cons_inv (a := front)).
    rewrite <- Hk at 1. rewrite <- (erase_keys _ _ _ _ Hd), Hperm1.
    destruct (_window s ++ [v]); [discriminate|]; injection Hfront as ->; reflexivity.
  - subst s'; split; [split; assumption|split; reflexivity].
Qed.

Lemma inserts_consistent (vals : list Z) (s s' : t) (u : unit) :
  consistent s -> 0 < _windowSize s <= INT_MAX ->
  Z.of_nat (length (_window s)) <= _windowSize s ->
  inserts vals s = Returns (u, s') ->
  consistent s' /\ _windowSize s' = _windowSize s /\
  Z.of_nat (length (_window s')) =
    Z.min (Z.of_nat (length (_window s)) + Z.of_nat (length vals)) (_windowSize s).
Proof.
  revert s; induction vals as [|v vals IH]; intros s Hc HW Hlen H.
  - injection H as <- <-; split; [assumption|split; [reflexivity|simpl; lia]].
  - simpl in H. apply bind_Returns_inv in H; destruct H as (u1 & s1 & H1 & H).
    destruct (insert_consistent _ _ _ _ Hc H1) as (Hc1 & HW1 & Hwin1).
    assert (Hlen1 : Z.of_nat (length (_window s1)) =
                    Z.min (Z.of_nat (length (_window s)) + 1) (_windowSize s)).
    { rewrite Hwin1; unfold evicts; rewrite to_size_t_small by lia.
      destruct (Z.gtb_spec (Z.of_nat (length (_window s)) + 1) (_windowSize s)).
      - destruct (_window s ++ [v]) eqn:E.
        + destruct (_window s); discriminate.
        + apply (f_equal (@length Z)) in E; rewrite length_app in E; simpl in *; lia.
      - rewrite length_app; simpl; lia. }
    destruct (IH s1 Hc1) as (Hc' & HW' & Hlen'); auto; try lia.
    split; [assumption|split; [congruence|]].
    rewrite Hlen', Hlen1, HW1; simpl length; lia.
Qed.

(** ** The cursor invariant *)

Ltac arith := zify; Z.to_euclidean_division_equations; lia.

Lemma insertToSorted_cursor (v : Z) (s : t) :
  well_formed (_sortedValues s) ->
  multiset.nodes (_sortedValues s) = [] \/ lower_median s ->
  exists it,
    insertToSorted v s =
      Returns (tt, mk (_windowSize s) (_window s)
                      (multiset.insert v (_sortedValues s)) it) /\
    lower_median (mk (_windowSize s) (_window s)
                     (multiset.insert v (_sortedValues s)) it).
Proof.
  intros Hwf H. rewrite insertToSorted_eq; simpl.
  pose proof (insert_well_formed v _ Hwf) as Hwf1.
  pose proof (insert_length v (_sortedValues s)) as Hlen.
  destruct H as [Hnil | (id & c & Hit & Hd)].
  - unfold multiset.size; rewrite Hlen, Hnil; simpl.
    eexists; split; [reflexivity|].
    unfold lower_median, multiset.begin, multiset.insert; simpl; rewrite Hnil; simpl.
    do 2 eexists; split; [reflexivity|].
    split; simpl; [now rewrite Nat.eqb_refl | reflexivity].
  - pose proof (denotes_lt _ _ _ _ Hd) as Hi.
    pose proof (insert_denotes v _ _ _ _ Hwf Hd) as Hd1.
    set (ms := multiset.insert v (_sortedValues s)) in *.
    unfold multiset.size; rewrite Hlen.
    destruct (Z.eqb_spec (Z.of_nat (S (length (multiset.nodes (_sortedValues s))))) 1);
      [lia|].
    rewrite Hit, (deref_denotes _ _ _ _ Hd1); unfold returns, move_after_insert.
    rewrite Z.geb_leb. revert Hd1.
    destruct (Z.ltb_spec v (multiset.key c)) as [lt|ge];
      destruct (Z.eqb_spec (Z.of_nat (S (length (multiset.nodes (_sortedValues s)))) mod 2) 0)
        as [ev|od]; cbn [andb negb]; intros Hd1.
    + destruct (nth_error_defined (multiset.nodes ms)
                  ((length (multiset.nodes (_sortedValues s)) - 1) / 2)) as (b & Hb);
        [lia|].
      destruct (prev_denotes ms _ _ _ _ (proj1 Hwf1) Hd1 Hb) as [-> Hd2].
      eexists; split; [reflexivity|]. exists (multiset.node_id b), b; split; [reflexivity|].
      cbn [_sortedValues]; rewrite Hlen.
      replace ((S (length (multiset.nodes (_sortedValues s))) - 1) / 2)%nat
        with ((length (multiset.nodes (_sortedValues s)) - 1) / 2)%nat by arith.
      exact Hd2.
    + destruct (Z.leb_spec (multiset.key c) v); [lia|]; cbn [andb negb].
      eexists; split; [reflexivity|]. exists id, c; split; [reflexivity|].
      cbn [_sortedValues]; rewrite Hlen.
      replace ((S (length (multiset.nodes (_sortedValues s))) - 1) / 2)%nat
        with (S ((length (multiset.nodes (_sortedValues s)) - 1) / 2))%nat by arith.
      exact Hd1.
    + rewrite andb_false_r.
      eexists; split; [reflexivity|]. exists id, c; split; [reflexivity|].
      cbn [_sortedValues]; rewrite Hlen.
      replace ((S (length (multiset.nodes (_sortedValues s))) - 1) / 2)%nat
        with ((length (multiset.nodes (_sortedValues s)) - 1) / 2)%nat by arith.
      exact Hd1.
    + destruct (Z.leb_spec (multiset.key c) v); [|lia]; cbn [andb negb].
      destruct (nth_error_defined (multiset.nodes ms)
                  (S ((length (multiset.nodes (_sortedValues s)) - 1) / 2))) as (d & Hd');
        [rewrite Hlen; arith|].
      destruct (next_denotes ms _ _ _ _ (proj1 Hwf1) Hd1 Hd') as [-> Hd2].
      eexists; split; [reflexivity|]. exists (multiset.node_id d), d; split; [reflexivity|].
      cbn [_sortedValues]; rewrite Hlen.
      replace ((S (length (multiset.nodes (_sortedValues s))) - 1) / 2)%nat
        with (S ((length (multiset.nodes (_sortedValues s)) - 1) / 2))%nat by arith.
      exact Hd2.
Qed.

(** An erasure from a multiset of even size keeps the cursor on the lower
    median: the cursor steps to its successor before a node at or before it
    is removed, and stays where it is when the node removed comes after. *)
Lemma eraseFromSorted_cursor (v : Z) (s : t) :
  well_formed (_sortedValues s) -> lower_median s ->
  In v (multiset.keys (_sortedValues s)) ->
  Z.of_nat (length (multiset.nodes (_sortedValues s))) mod 2 = 0 ->
  exists it ms',
    multiset.erase (multiset.find v (_sortedValues s)) (_sortedValues s) = Some ms' /\
    eraseFromSorted v s = Returns (tt, mk (_windowSize s) (_window s) ms' it) /\
    lower_median (mk (_windowSize s) (_window s) ms' it).
Proof.
  intros Hwf (id & c & Hit & Hd) Hin Hev.
  rewrite eraseFromSorted_eq; cbn zeta.
  destruct (find_erase _ _ Hwf Hin) as (x & p & Hfind & Hx & Hk & Hfirst & He).
  rewrite Hfind, He, Hit, (deref_denotes _ _ _ _ Hd).
  unfold returns, move_before_erase, multiset.size.
  rewrite (proj2 (Z.eqb_eq _ _) Hev), andb_true_r; cbn [negb]; rewrite andb_false_r.
  pose proof (denotes_lt _ _ _ _ Hd) as Hi.
  pose proof (Permutation_length (unlink_perm _ _ _ _ Hx)) as Hlen; simpl in Hlen.
  destruct Hwf as (ND & _ & HS).
  set (l := multiset.nodes (_sortedValues s)) in *.
  set (i := ((length l - 1) / 2)%nat) in *.
  destruct (Z.leb_spec v (multiset.key c)) as [le|gt].
  - destruct (nth_error_defined l (S i)) as (d & Hd'); [subst i; arith|].
    destruct (next_denotes _ _ _ _ _ ND Hd Hd') as [-> Hd2].
    assert (Hpi : (p <= i)%nat).
    { destruct (Nat.le_gt_cases p i) as [|Hgt]; [assumption|exfalso].
      destruct (Z.eq_dec v (multiset.key c)) as [e|ne].
      - specialize (Hfirst i c Hgt (proj2 Hd)); lia.
      - pose proof (sorted_nth_le l i p c x HS (Nat.lt_le_incl _ _ Hgt)
                      (proj2 Hd) (proj2 Hx)); lia. }
    assert (Hne : multiset.node_id d <> multiset.node_id x).
    { apply (denotes_neq _ _ _ _ _ _ _ Hd2 Hx); lia. }
    pose proof (unlink_denotes _ _ _ _ _ _ Hd2 (proj1 Hx) Hne) as Hd3.
    destruct (Nat.ltb_spec p (S i)); [|lia]; cbn [pred] in Hd3.
    do 2 eexists; split; [reflexivity|split; [reflexivity|]].
    exists (multiset.node_id d), d; split; [reflexivity|].
    cbn [_sortedValues multiset.nodes].
    replace ((length (multiset.unlink (multiset.node_id x) l) - 1) / 2)%nat
      with i by (subst i; arith).
    exact Hd3.
  - assert (Hpi : (i < p)%nat).
    { destruct (Nat.le_gt_cases p i) as [Hle|]; [exfalso|assumption].
      pose proof (sorted_nth_le l p i x c HS Hle (proj2 Hx) (proj2 Hd)); lia. }
    assert (Hne : id <> multiset.node_id x).
    { apply (denotes_neq _ _ _ _ _ _ _ Hd Hx); lia. }
    pose proof (unlink_denotes _ _ _ _ _ _ Hd (proj1 Hx) Hne) as Hd3.
    destruct (Nat.ltb_spec p i); [lia|].
    do 2 eexists; split; [reflexivity|split; [reflexivity|]].
    exists id, c; split; [reflexivity|].
    cbn [_sortedValues multiset.nodes].
    replace ((length (multiset.unlink (multiset.node_id x) l) - 1) / 2)%nat
      with i by (subst i; arith).
    exact Hd3.
Qed.

(** An erasure from a multiset of odd size does the same when all keys are
    distinct: the cursor steps back before a node at or after it is
    removed, and stays where it is when the node removed comes before. *)
Lemma eraseFromSorted_cursor_distinct (v : Z) (s : t) :
  well_formed (_sortedValues s) -> lower_median s ->
  In v (multiset.keys (_sortedValues s)) ->
  NoDup (multiset.keys (_sortedValues s)) ->
  Z.of_nat (length (multiset.nodes (_sortedValues s))) mod 2 = 1 ->
  (1 < length (multiset.nodes (_sortedValues s)))%nat ->
  exists it ms',
    multiset.erase (multiset.find v (_sortedValues s)) (_sortedValues s) = Some ms' /\
    eraseFromSorted v s = Returns (tt, mk (_windowSize s) (_window s) ms' it) /\
    lower_median (mk (_windowSize s) (_window s) ms' it).
Proof.
  intros Hwf (id & c & Hit & Hd) Hin Hnd Hodd Hn.
  rewrite eraseFromSorted_eq; cbn zeta.
  destruct (find_erase _ _ Hwf Hin) as (x & p & Hfind & Hx & Hk & _ & He).
  rewrite Hfind, He, Hit, (deref_denotes _ _ _ _ Hd).
  unfold returns, move_before_erase, multiset.size.
  destruct (Z.eqb_spec (Z.of_nat (length (multiset.nodes (_sortedValues s))) mod 2) 0)
    as [ev|_]; [lia|].
  rewrite andb_false_r, andb_true_r, Z.geb_leb; cbn [negb].
  pose proof (denotes_lt _ _ _ _ Hd) as Hi.
  pose proof (Permutation_length (unlink_perm _ _ _ _ Hx)) as Hlen; simpl in Hlen.
  destruct Hwf as (ND & _ & HS).
  unfold multiset.keys in Hnd.
  set (l := multiset.nodes (_sortedValues s)) in *.
  assert (Hpi : forall j y, nth_error l j = Some y ->
                            multiset.key y = multiset.key x -> j = p).
  { intros j y Hy Hyx. apply (proj1 (NoDup_nth_error _) Hnd).
    - rewrite length_map; apply nth_error_Some; congruence.
    - now rewrite !nth_error_map, Hy, (proj2 Hx); simpl; rewrite Hyx. }
  destruct (Z.leb_spec (multiset.key c) v) as [le|gt].
  - destruct ((length l - 1) / 2)%nat as [|i] eqn:Ei; [exfalso; arith|].
    destruct (nth_error_defined l i) as (b & Hb); [lia|].
    destruct (prev_denotes _ _ _ _ _ ND Hd Hb) as [-> Hd2].
    assert (Hip : (S i <= p)%nat).
    { destruct (Nat.le_gt_cases (S i) p) as [|Hlt]; [assumption|exfalso].
      pose proof (sorted_nth_le l p (S i) x c HS (Nat.lt_le_incl _ _ Hlt)
                    (proj2 Hx) (proj2 Hd)) as Hxc.
      assert (S i = p) by (apply (Hpi _ c (proj2 Hd)); lia). lia. }
    assert (Hne : multiset.node_id b <> multiset.node_id x).
    { apply (denotes_neq _ _ _ _ _ _ _ Hd2 Hx); lia. }
    pose proof (unlink_denotes _ _ _ _ _ _ Hd2 (proj1 Hx) Hne) as Hd3.
    destruct (Nat.ltb_spec p i); [lia|].
    do 2 eexists; split; [reflexivity|split; [reflexivity|]].
    exists (multiset.node_id b), b; split; [reflexivity|].
    cbn [_sortedValues multiset.nodes].
    replace ((length (multiset.unlink (multiset.node_id x) l) - 1) / 2)%nat
      with i by arith.
    exact Hd3.
  - set (i := ((length l - 1) / 2)%nat) in *.
    assert (Hpi' : (p < i)%nat).
    { destruct (Nat.le_gt_cases i p) as [Hle|]; [exfalso|assumption].
      pose proof (sorted_nth_le l i p c x HS Hle (proj2 Hd) (proj2 Hx)); lia. }
    assert (Hne : id <> multiset.node_id x).
    { apply (denotes_neq _ _ _ _ _ _ _ Hd Hx); lia. }
    pose proof (unlink_denotes _ _ _ _ _ _ Hd (proj1 Hx) Hne) as Hd3.
    destruct (Nat.ltb_spec p i); [|lia].
    do 2 eexists; split; [reflexivity|split; [reflexivity|]].
    exists id, c; split; [reflexivity|].
    cbn [_sortedValues multiset.nodes].
    replace ((length (multiset.unlink (multiset.node_id x) l) - 1) / 2)%nat
      with (pred i) by (subst i; arith).
    exact Hd3.
Qed.

(** ** One insertion *)

Lemma consistent_length (s : t) :
  consistent s -> length (multiset.nodes (_sortedValues s)) = length (_window s).
Proof.
  intros [_ H]; apply Permutation_length in H.
  unfold multiset.keys in H; now rewrite length_map in H.
Qed.

(** An insertion returns and leaves the cursor on the lower median when
    its eviction, if any, takes place at an even size, or at an odd size
    with a window of distinct values. *)
Lemma insert_cursor (v : Z) (s : t) :
  invariant s ->
  (evicts s = true -> (Z.of_nat (length (_window s)) + 1) mod 2 = 1 ->
   NoDup (_window s ++ [v]) /\ (0 < length (_window s))%nat) ->
  exists s', insert v s = Returns (tt, s') /\ invariant s'.
Proof.
  intros [Hc Hcur] Hev.
  assert (exists s', insert v s = Returns (tt, s') /\ lower_median s') as (s' & H & Hlm).
  { rewrite insert_eq.
    destruct (insertToSorted_cursor v
                (mk (_windowSize s) (_window s ++ [v]) (_sortedValues s) (_itMedian s))
                (proj1 Hc) Hcur) as (it1 & -> & Hlm1).
    cbn [_window _windowSize _sortedValues _itMedian] in *.
    rewrite length_app, Nat2Z.inj_add; simpl length.
    change (Z.of_nat (length (_window s)) + Z.of_nat 1 >? to_size_t (_windowSize s))
      with (evicts s).
    destruct (evicts s); [|eauto].
    assert (exists front, hd_error (_window s ++ [v]) = Some front) as (front & Hfront).
    { destruct (_window s); simpl; eauto. }
    rewrite Hfront; unfold returns.
    assert (Hperm : Permutation (multiset.keys (multiset.insert v (_sortedValues s)))
                                (_window s ++ [v])).
    { rewrite <- insert_keys, <- Permutation_cons_append; constructor; apply Hc. }
    assert (Hin : In front (multiset.keys (multiset.insert v (_sortedValues s)))).
    { apply (Permutation_in _ (Permutation_sym Hperm)).
      destruct (_window s ++ [v]); [discriminate|injection Hfront as ->; now left]. }
    pose proof (insert_well_formed v _ (proj1 Hc)) as Hwf1.
    pose proof (insert_length v (_sortedValues s)) as Hlen1.
    rewrite (consistent_length _ Hc) in Hlen1.
    set (s1 := mk (_windowSize s) (_window s ++ [v])
                  (multiset.insert v (_sortedValues s)) it1) in *.
    destruct (Z.eq_dec ((Z.of_nat (length (_window s)) + 1) mod 2) 0) as [ev|od].
    - destruct (eraseFromSorted_cursor front s1 Hwf1 Hlm1 Hin)
        as (it2 & ms' & _ & -> & Hlm2).
      { cbn [s1 _sortedValues]; rewrite Hlen1, Nat2Z.inj_succ; exact ev. }
      eexists; split; [reflexivity|exact Hlm2].
    - destruct Hev as [Hnd Hpos]; [reflexivity|arith|].
      destruct (eraseFromSorted_cursor_distinct front s1 Hwf1 Hlm1 Hin)
        as (it2 & ms' & _ & -> & Hlm2).
      { apply (Permutation_NoDup (Permutation_sym Hperm) Hnd). }
      { cbn [s1 _sortedValues]; rewrite Hlen1; arith. }
      { cbn [s1 _sortedValues]; rewrite Hlen1; lia. }
      eexists; split; [reflexivity|exact Hlm2]. }
  exists s'; split; [assumption|]; split; [|now right].
  now destruct (insert_consistent _ _ _ _ Hc H).
Qed.

(** ** Streams of insertions *)

(** With an odd window size every eviction takes place at an even size. *)
Lemma inserts_odd_window (vals : list Z) (s : t) :
  invariant s -> 0 < _windowSize s <= INT_MAX -> _windowSize s mod 2 = 1 ->
  Z.of_nat (length (_window s)) <= _windowSize s ->
  exists s', inserts vals s = Returns (tt, s') /\ invariant s'.
Proof.
  revert s; induction vals as [|v vals IH]; intros s Hinv HW Hodd Hlen.
  - exists s; split; [reflexivity|assumption].
  - destruct (insert_cursor v s Hinv) as (s1 & H1 & Hinv1).
    { unfold evicts; rewrite to_size_t_small, Z.gtb_ltb, Z.ltb_lt by lia.
      intros Hgt Hpar; exfalso; arith. }
    destruct (insert_consistent _ _ _ _ (proj1 Hinv) H1) as (_ & HW1 & Hwin1).
    destruct (IH s1 Hinv1) as (s' & H & Hinv'); try (rewrite HW1; assumption).
    { rewrite Hwin1, HW1; unfold evicts; rewrite to_size_t_small, Z.gtb_ltb by lia.
      destruct (Z.ltb_spec (_windowSize s) (Z.of_nat (length (_window s)) + 1)).
      - destruct (_window s); simpl; [lia|]; rewrite length_app; simpl in *; lia.
      - rewrite length_app; simpl; lia. }
    exists s'; split; [|assumption].
    simpl; unfold bind; now rewrite H1.
Qed.

(** As long as the size test fails the window only grows. *)
Lemma inserts_no_eviction (vals : list Z) (s : t) :
  invariant s ->
  Z.of_nat (length (_window s)) + Z.of_nat (length vals) <= to_size_t (_windowSize s) ->
  exists s',
    inserts vals s = Returns (tt, s') /\ invariant s' /\
    _window s' = _window s ++ vals /\ _windowSize s' = _windowSize s.
Proof.
  revert s; induction vals as [|v vals IH]; intros s Hinv Hlen.
  - exists s; rewrite app_nil_r; repeat split; auto; apply Hinv.
  - simpl length in Hlen.
    assert (Hev : evicts s = false).
    { unfold evicts; rewrite Z.gtb_ltb; apply Z.ltb_ge; lia. }
    destruct (insert_cursor v s Hinv) as (s1 & H1 & Hinv1);
      [rewrite Hev; discriminate|].
    destruct (insert_consistent _ _ _ _ (proj1 Hinv) H1) as (_ & HW1 & Hwin1).
    rewrite Hev in Hwin1.
    destruct (IH s1 Hinv1) as (s' & H & Hinv' & Hwin' & HW').
    { rewrite Hwin1, HW1, length_app; simpl; lia. }
    exists s'; split; [simpl; unfold bind; now rewrite H1|].
    split; [assumption|]. rewrite Hwin', Hwin1, <- app_assoc. split; [reflexivity|congruence].
Qed.

(** A stream whose values are all distinct keeps the window distinct. *)
Lemma inserts_distinct (vals : list Z) (s : t) :
  invariant s -> 0 < _windowSize s <= INT_MAX ->
  NoDup (_window s ++ vals) ->
  exists s', inserts vals s = Returns (tt, s') /\ invariant s'.
Proof.
  revert s; induction vals as [|v vals IH]; intros s Hinv HW Hnd.
  - exists s; split; [reflexivity|assumption].
  - assert (Hnd1 : NoDup ((_window s ++ [v]) ++ vals)) by now rewrite <- app_assoc.
    destruct (insert_cursor v s Hinv) as (s1 & H1 & Hinv1).
    { unfold evicts; rewrite to_size_t_small, Z.gtb_ltb, Z.ltb_lt by lia.
      intros Hgt _; split; [exact (NoDup_app_remove_r _ _ Hnd1)|lia]. }
    destruct (insert_consistent _ _ _ _ (proj1 Hinv) H1) as (_ & HW1 & Hwin1).
    destruct (IH s1 Hinv1) as (s' & H & Hinv'); try (rewrite HW1; assumption).
    { rewrite Hwin1. destruct (evicts s); [|assumption].
      destruct (_window s ++ [v]); [assumption|].
      simpl in *; now inversion Hnd1. }
    exists s'; split; [|assumption].
    simpl; unfold bind; now rewrite H1.
Qed.

(** ** The two medians *)

Lemma sorted_perm_eq (l1 l2 : list Z) :
  StronglySorted Z.le l1 -> StronglySorted Z.le l2 -> Permutation l1 l2 -> l1 = l2.
Proof.
  revert l2; induction l1 as [|a l1 IH]; intros l2 H1 H2 HP.
  - now apply Permutation_nil in HP.
  - destruct l2 as [|b l2]; [apply Permutation_sym, Permutation_nil in HP; discriminate|].
    inversion H1 as [|? ? H1' Ha]; inversion H2 as [|? ? H2' Hb]; subst.
    assert (a = b) as ->.
    { assert (Hab : In a (b :: l2)) by (apply (Permutation_in _ HP); now left).
      assert (Hba : In b (a :: l1))
        by (apply (Permutation_in _ (Permutation_sym HP)); now left).
      rewrite Forall_forall in Ha, Hb.
      destruct Hab as [->|Hab]; [reflexivity|].
      destruct Hba as [->|Hba]; [reflexivity|].
      specialize (Ha _ Hba); specialize (Hb _ Hab); lia. }
    f_equal; apply IH; auto. now apply Permutation_cons_inv in HP.
Qed.

Lemma sort_sorted (l : list Z) : StronglySorted Z.le (ZSort.sort l).
Proof.
  pose proof (ZSort.StronglySorted_sort l ZLeb.leb_trans) as H.
  induction H as [|a l' H IH Ha]; constructor; auto.
  eapply Forall_impl; [|exact Ha]; intros b Hb; now apply ZLeb.leb_le.
Qed.

Lemma keys_sorted (l : list multiset.node) :
  StronglySorted key_le l -> StronglySorted Z.le (map multiset.key l).
Proof.
  induction 1 as [|a l H IH Ha]; simpl; constructor; auto.
  now apply Forall_map.
Qed.

(** Sorting the window gives the keys of the multiset, in order. *)
Lemma sort_window (s : t) :
  consistent s -> ZSort.sort (_window s) = multiset.keys (_sortedValues s).
Proof.
  intros [(_ & _ & HS) HP]; apply sorted_perm_eq.
  - apply sort_sorted.
  - now apply keys_sorted.
  - now rewrite <- ZSort.Permuted_sort, HP.
Qed.

Lemma Float32_add_comm (x y : Float32.float) : Float32.add x y = Float32.add y x.
Proof.
  unfold Float32.add, SFadd.
  destruct x as [[|]|[|]| |sx mx ex], y as [[|]|[|]| |sy my ey]; try reflexivity.
  now rewrite Z.min_comm, Z.add_comm.
Qed.

Lemma mean_comm (a b : Z) : mean a b = mean b a.
Proof. apply Float32_add_comm. Qed.

Lemma getMedian_eq (s : t) :
  getMedian s =
  let ms := _sortedValues s in
  if negb (multiset.size ms mod 2 =? 0) then
    returns (multiset.deref (_itMedian s) ms) (fun cur =>
    Returns (Float32.of_int cur, s))
  else
    returns (multiset.deref (_itMedian s) ms) (fun cur =>
    returns (multiset.next (_itMedian s) ms) (fun it =>
    returns (multiset.deref it ms) (fun nxt =>
    Returns (mean cur nxt, s)))).
Proof.
  unfold returns, mean, getMedian, deref_itMedian, defined, this, ret, bind; cbn zeta.
  destruct (negb _); destruct (multiset.deref (_itMedian s) _); try reflexivity.
  destruct (multiset.next _ _) as [it|]; [|reflexivity].
  destruct (multiset.deref it _); reflexivity.
Qed.

Lemma getMedianNaive_eq (s : t) :
  getMedianNaive s =
  let window := ZSort.sort (_window s) in
  let sz := length window in
  returns (nth_error window (sz / 2)%nat) (fun median =>
  if negb (Nat.eqb (sz mod 2)%nat 0%nat) then Returns (Float32.of_int median, s)
  else
    returns (nth_error window (sz / 2 - 1)%nat) (fun lower =>
    Returns (mean median lower, s))).
Proof.
  unfold returns, mean, getMedianNaive, defined, this, ret, bind; cbn zeta.
  destruct (nth_error _ (_ / 2)%nat); [|reflexivity].
  destruct (negb _); [reflexivity|].
  destruct (nth_error _ _); reflexivity.
Qed.

(** The value of [getMedian] when the cursor is on the lower median. *)
Lemma getMedian_value (s : t) :
  well_formed (_sortedValues s) -> lower_median s ->
  let l := multiset.keys (_sortedValues s) in
  let n := length l in
  exists a,
    nth_error l ((n - 1) / 2)%nat = Some a /\
    if Nat.eqb (n mod 2)%nat 0%nat
    then exists b, nth_error l (n / 2)%nat = Some b /\
                   getMedian s = Returns (mean a b, s)
    else getMedian s = Returns (Float32.of_int a, s).
Proof.
  intros (ND & _ & _) (id & c & Hit & Hd); cbn zeta.
  unfold multiset.keys; rewrite length_map.
  pose proof (denotes_lt _ _ _ _ Hd) as Hi.
  set (n := length (multiset.nodes (_sortedValues s))) in *.
  exists (multiset.key c); split.
  { rewrite nth_error_map, (proj2 Hd); reflexivity. }
  rewrite getMedian_eq; cbn zeta; unfold multiset.size; fold n.
  rewrite Hit, (deref_denotes _ _ _ _ Hd); unfold returns.
  destruct (Nat.eqb_spec (n mod 2)%nat 0%nat) as [ev|od].
  - destruct (Z.eqb_spec (Z.of_nat n mod 2) 0) as [_|od]; [|exfalso; arith].
    cbn [negb].
    destruct (nth_error_defined (multiset.nodes (_sortedValues s)) (S ((n - 1) / 2)))
      as (d & Hd'); [fold n; arith|].
    destruct (next_denotes _ _ _ _ _ ND Hd Hd') as [-> Hd2].
    rewrite (deref_denotes _ _ _ _ Hd2).
    exists (multiset.key d); split; [|reflexivity].
    replace (n / 2)%nat with (S ((n - 1) / 2)) by arith.
    rewrite nth_error_map, Hd'; reflexivity.
  - destruct (Z.eqb_spec (Z.of_nat n mod 2) 0) as [ev|_]; [exfalso; arith|].
    reflexivity.
Qed.

(** When the invariant holds the two medians are the same float. *)
Lemma medians_agree (s : t) :
  consistent s -> lower_median s ->
  exists r, getMedian s = Returns (r, s) /\ getMedianNaive s = Returns (r, s).
Proof.
  intros Hc Hlm.
  destruct (getMedian_value s (proj1 Hc) Hlm) as (a & Ha & H).
  rewrite getMedianNaive_eq, (sort_window _ Hc); cbn zeta in *.
  set (l := multiset.keys (_sortedValues s)) in *.
  assert (Hn : (0 < length l)%nat).
  { destruct l; [destruct ((0 - 1) / 2)%nat; discriminate|simpl; lia]. }
  destruct (Nat.eqb_spec (length l mod 2)%nat 0%nat) as [ev|od]; cbn [negb].
  - destruct H as (b & Hb & H). exists (mean a b); split; [assumption|].
    rewrite Hb; unfold returns.
    replace (length l / 2 - 1)%nat with ((length l - 1) / 2)%nat by arith.
    now rewrite Ha, mean_comm.
  - exists (Float32.of_int a); split; [assumption|].
    replace (length l / 2)%nat with ((length l - 1) / 2)%nat by arith.
    now rewrite Ha.
Qed.

(** ** Runs from a fresh object *)

Lemma fresh_object_invariant (windowSize : Z) : invariant (fresh_object windowSize).
Proof.
  split; [split|now left]; [apply empty_well_formed|reflexivity].
Qed.

Lemma run_Returns (windowSize : Z) (vals : list Z) (s : t) :
  run windowSize vals = Returns s <->
  exists u, inserts vals (fresh_object windowSize) = Returns (u, s).
Proof.
  unfold run, WindowedMedian, fresh_object.
  destruct (inserts vals _) as [[u s1]| | |]; split;
    try discriminate; try (intros [? ?]; discriminate).
  - intros [= ->]; eauto.
  - intros [u' [= _ ->]]; reflexivity.
Qed.

(** [getMedian] hands the object back as it received it. *)
Lemma getMedian_const (s s' : t) (r : Float32.float) :
  getMedian s = Returns (r, s') -> s' = s.
Proof.
  rewrite getMedian_eq; unfold returns; cbn zeta.
  destruct (negb _); destruct (multiset.deref (_itMedian s) _); try discriminate.
  - now intros [= _ <-].
  - destruct (multiset.next _ _) as [it|]; [|discriminate].
    destruct (multiset.deref it _); [|discriminate].
    now intros [= _ <-].
Qed.

End WindowedMedian_facts.

(** * Properties of the class *)

Import multiset_facts WindowedMedian_facts.

(** The seven fixed streams of [main] pass the assertion of [test]. *)
Example main_fixed_streams :
  test [1; 2; 3; 4; 5; 6; 7; 8; 9] 3 = Returns tt /\
  test [9; 8; 7; 6; 5; 4; 3; 2; 1] 3 = Returns tt /\
  test [9; 8; 7; 6; 5; 4; 5; 6] 4 = Returns tt /\
  test [3; 3; 3; 3; 3; 3; 3; 3; 3] 3 = Returns tt /\
  test [3; 3; 3; 3; -7; 3; 3; 3; 3] 3 = Returns tt /\
  test [4; 3; 3; -5; 7; 1; 3; 4; 5] 5 = Returns tt /\
  test [470211272; 101027544; 1457850878; 1458777923; 2007237709; 823564440;
        1115438165; 1784484492; 74243042; 114807987] 6 = Returns tt.
Proof. repeat split; vm_compute; reflexivity. Qed.

Example medians_window_3 :
  medians_from [1; 2; 3; 4; 5; 6; 7; 8; 9] (WindowedMedian.fresh_object 3) =
  [Returns (Float32.of_int 1); Returns (halves 3);
   Returns (Float32.of_int 2); Returns (Float32.of_int 3);
   Returns (Float32.of_int 4); Returns (Float32.of_int 5);
   Returns (Float32.of_int 6); Returns (Float32.of_int 7);
   Returns (Float32.of_int 8)].
Proof. vm_compute; reflexivity. Qed.

Example medians_window_4 :
  medians_from [9; 8; 7; 6; 5; 4; 5; 6] (WindowedMedian.fresh_object 4) =
  [Returns (Float32.of_int 9); Returns (halves 17);
   Returns (Float32.of_int 8); Returns (halves 15);
   Returns (halves 13); Returns (halves 11);
   Returns (Float32.of_int 5); Returns (Float32.of_int 5)].
Proof. vm_compute; reflexivity. Qed.

(** ** Where the cursor is right

    Two families of runs never meet the flaw shown further down: those with
    an odd window size, where every eviction happens at an even size, and
    those of a stream without repeated values.  Such a stream always runs
    to its end, the cursor is on the lower median, and the two medians are
    the same float. *)

Lemma invariant_correct (windowSize : Z) (vals : list Z) (s : WindowedMedian.t) :
  0 < windowSize <= INT_MAX -> vals <> [] ->
  WindowedMedian.inserts vals (WindowedMedian.fresh_object windowSize) = Returns (tt, s) ->
  WindowedMedian.invariant s ->
  exists r,
    WindowedMedian.run windowSize vals = Returns s /\
    WindowedMedian.cursor_rank s =
      Some ((length (multiset.nodes (WindowedMedian._sortedValues s)) - 1) / 2)%nat /\
    WindowedMedian.getMedian s = Returns (r, s) /\
    WindowedMedian.getMedianNaive s = Returns (r, s).
Proof.
  intros HW Hvals H Hinv.
  destruct (inserts_consistent _ _ _ _ (proj1 (fresh_object_invariant windowSize))
              HW ltac:(simpl; lia) H) as (_ & _ & Hlen).
  destruct Hinv as [Hc [Hnil|Hlm]].
  - rewrite <- (consistent_length _ Hc), Hnil in Hlen.
    destruct vals; [congruence|simpl in Hlen; lia].
  - destruct (medians_agree s Hc Hlm) as (r & Hr & Hn).
    exists r; repeat split; auto.
    + apply run_Returns; eauto.
    + destruct Hlm as (id & c & Hit & Hd).
      unfold WindowedMedian.cursor_rank; rewrite Hit; apply Hd.
Qed.

Theorem odd_window_correct (windowSize : Z) (vals : list Z) :
  0 < windowSize <= INT_MAX -> windowSize mod 2 = 1 -> vals <> [] ->
  exists s r,
    WindowedMedian.run windowSize vals = Returns s /\
    WindowedMedian.cursor_rank s =
      Some ((length (multiset.nodes (WindowedMedian._sortedValues s)) - 1) / 2)%nat /\
    WindowedMedian.getMedian s = Returns (r, s) /\
    WindowedMedian.getMedianNaive s = Returns (r, s).
Proof.
  intros HW Hodd Hvals.
  destruct (inserts_odd_window vals (WindowedMedian.fresh_object windowSize)) as (s & H & Hinv);
    auto using fresh_object_invariant; [simpl; lia|].
  exists s; now apply invariant_correct.
Qed.

Lemma odd_window_correct_witness :
  exists s r,
    WindowedMedian.run 3 [3; 3; 3; 3; -7; 3] = Returns s /\
    WindowedMedian.cursor_rank s =
      Some ((length (multiset.nodes (WindowedMedian._sortedValues s)) - 1) / 2)%nat /\
    WindowedMedian.getMedian s = Returns (r, s) /\
    WindowedMedian.getMedianNaive s = Returns (r, s).
Proof.
  apply (odd_window_correct 3 [3; 3; 3; 3; -7; 3]);
    [unfold INT_MAX; lia | reflexivity | discriminate].
Defined.

Theorem distinct_stream_correct (windowSize : Z) (vals : list Z) :
  0 < windowSize <= INT_MAX -> NoDup vals -> vals <> [] ->
  exists s r,
    WindowedMedian.run windowSize vals = Returns s /\
    WindowedMedian.cursor_rank s =
      Some ((length (multiset.nodes (WindowedMedian._sortedValues s)) - 1) / 2)%nat /\
    WindowedMedian.getMedian s = Returns (r, s) /\
    WindowedMedian.getMedianNaive s = Returns (r, s).
Proof.
  intros HW Hnd Hvals.
  destruct (inserts_distinct vals (WindowedMedian.fresh_object windowSize)) as (s & H & Hinv);
    auto using fresh_object_invariant.
  exists s; now apply invariant_correct.
Qed.

Lemma distinct_stream_correct_witness :
  exists s r,
    WindowedMedian.run 4 [9; 8; 7; 6; 5; 4] = Returns s /\
    WindowedMedian.cursor_rank s =
      Some ((length (multiset.nodes (WindowedMedian._sortedValues s)) - 1) / 2)%nat /\
    WindowedMedian.getMedian s = Returns (r, s) /\
    WindowedMedian.getMedianNaive s = Returns (r, s).
Proof.
  apply (distinct_stream_correct 4 [9; 8; 7; 6; 5; 4]);
    [unfold INT_MAX; lia | repeat constructor; simpl; lia | discriminate].
Defined.

(** ** Sizes and contents *)

(** C4.  For a positive window size, when a stream of [k] insertions has
    run, the multiset and the window have the same size, which is
    [min k _windowSize], and the keys of the multiset are a permutation of
    the window. *)
Theorem size_consistency (windowSize : Z) (vals : list Z) (s : WindowedMedian.t) :
  0 < windowSize <= INT_MAX ->
  WindowedMedian.run windowSize vals = Returns s ->
  multiset.size (WindowedMedian._sortedValues s) =
    Z.of_nat (length (WindowedMedian._window s)) /\
  Z.of_nat (length (WindowedMedian._window s)) =
    Z.min (Z.of_nat (length vals)) windowSize /\
  Permutation (multiset.keys (WindowedMedian._sortedValues s))
              (WindowedMedian._window s).
Proof.
  intros HW H. apply run_Returns in H; destruct H as (u & H).
  destruct (inserts_consistent _ _ _ _ (proj1 (fresh_object_invariant windowSize))
              HW ltac:(simpl; lia) H) as (Hc & _ & Hlen).
  split; [|split].
  - unfold multiset.size; now rewrite (consistent_length _ Hc).
  - exact Hlen.
  - apply Hc.
Qed.

Lemma size_consistency_witness :
  0 < 3 <= INT_MAX /\
  WindowedMedian.run 3 [4; 3; 3; -5; 7] = Returns (state_after 3 [4; 3; 3; -5; 7]) /\
  multiset.size (WindowedMedian._sortedValues (state_after 3 [4; 3; 3; -5; 7])) =
    Z.of_nat (length (WindowedMedian._window (state_after 3 [4; 3; 3; -5; 7]))) /\
  Z.of_nat (length (WindowedMedian._window (state_after 3 [4; 3; 3; -5; 7]))) =
    Z.min 5 3 /\
  Permutation
    (multiset.keys (WindowedMedian._sortedValues (state_after 3 [4; 3; 3; -5; 7])))
    (WindowedMedian._window (state_after 3 [4; 3; 3; -5; 7])).
Proof.
  split; [unfold INT_MAX; lia|]; split; [vm_compute; reflexivity|].
  apply (size_consistency 3 [4; 3; 3; -5; 7]);
    [unfold INT_MAX; lia | vm_compute; reflexivity].
Defined.

(** ** Negative window sizes *)

Lemma to_size_t_negative (z : Z) : INT_MIN <= z < 0 -> to_size_t z = 2 ^ 64 + z.
Proof.
  unfold INT_MIN, to_size_t; intros H.
  symmetry; apply (Z.mod_unique _ _ (-1)); lia.
Qed.

(** C10.  The constructor accepts a negative window size.  The size test of
    [insert] then compares the length of the window with
    [2^64 + _windowSize]: no insertion evicts, and after a stream [vals]
    the window is [vals] itself, the multiset holds all of it, and the next
    insertion will not evict either.  The bound on the length is the one
    place where the model stops: a longer window does not fit in
    [size_t]'s worth of memory. *)
Theorem negative_window_never_evicts (windowSize : Z) (vals : list Z) :
  INT_MIN <= windowSize < 0 ->
  Z.of_nat (length vals) < 2 ^ 64 + windowSize ->
  to_size_t windowSize = 2 ^ 64 + windowSize /\
  exists s,
    WindowedMedian.run windowSize vals = Returns s /\
    WindowedMedian._windowSize s = windowSize /\
    WindowedMedian._window s = vals /\
    multiset.size (WindowedMedian._sortedValues s) = Z.of_nat (length vals) /\
    Permutation (multiset.keys (WindowedMedian._sortedValues s)) vals /\
    WindowedMedian.evicts s = false.
Proof.
  intros HW Hlen. pose proof (to_size_t_negative _ HW) as Hsz.
  split; [assumption|].
  destruct (inserts_no_eviction vals (WindowedMedian.fresh_object windowSize)
              (fresh_object_invariant windowSize)) as (s & H & Hinv & Hwin & HW').
  { simpl; rewrite Hsz; lia. }
  simpl in Hwin, HW'.
  exists s; split; [apply run_Returns; eauto|].
  split; [assumption|]; split; [assumption|].
  destruct Hinv as [Hc _]. unfold multiset.size.
  rewrite (consistent_length _ Hc), Hwin; split; [reflexivity|]; split.
  - rewrite <- Hwin; apply Hc.
  - unfold WindowedMedian.evicts; rewrite Hwin, HW', Hsz, Z.gtb_ltb; apply Z.ltb_ge; lia.
Qed.

Lemma negative_window_never_evicts_witness :
  to_size_t (-1) = 2 ^ 64 + -1 /\
  exists s,
    WindowedMedian.run (-1) [5; 1; 4; 1; 3] = Returns s /\
    WindowedMedian._windowSize s = -1 /\
    WindowedMedian._window s = [5; 1; 4; 1; 3] /\
    multiset.size (WindowedMedian._sortedValues s) = 5 /\
    Permutation (multiset.keys (WindowedMedian._sortedValues s)) [5; 1; 4; 1; 3] /\
    WindowedMedian.evicts s = false.
Proof.
  apply (negative_window_never_evicts (-1) [5; 1; 4; 1; 3]);
    [unfold INT_MIN; lia | simpl; lia].
Defined.

(** ** Error conditions *)

(** C5, as the code has it.  The constructor stores any window size, zero
    and negative ones included, and returns an empty object; it has no
    failing path. *)
Theorem constructor_accepts_any_size (windowSize : Z) :
  WindowedMedian.WindowedMedian windowSize =
    Returns (WindowedMedian.mk windowSize [] multiset.empty multiset.Singular).
Proof. reflexivity. Qed.

(** C5 fails as stated: the window sizes 0 and -1 are not rejected. *)
Lemma constructor_does_not_reject_zero :
  WindowedMedian.WindowedMedian 0 = Returns (WindowedMedian.fresh_object 0) /\
  WindowedMedian.WindowedMedian 0 <> Throws InvalidArgument /\
  WindowedMedian.WindowedMedian (-1) <> Throws InvalidArgument.
Proof. split; [reflexivity|split; discriminate]. Qed.

(** C6, as the code has it.  On the object the constructor returns the size
    is 0, which is even, and [getMedian] reads through the
    default-constructed cursor: the call is undefined, whatever the window
    size, and so is [getMedianNaive], which reads past the empty window. *)
Theorem getMedian_before_insert_undefined (windowSize : Z) :
  WindowedMedian.run windowSize [] = Returns (WindowedMedian.fresh_object windowSize) /\
  WindowedMedian.getMedian (WindowedMedian.fresh_object windowSize) = Undefined /\
  WindowedMedian.getMedianNaive (WindowedMedian.fresh_object windowSize) = Undefined.
Proof. repeat split. Qed.

(** C6 fails as stated: no [EmptyStateError] is raised. *)
Lemma getMedian_before_insert_no_error :
  WindowedMedian.run 3 [] = Returns (WindowedMedian.fresh_object 3) /\
  WindowedMedian.result WindowedMedian.getMedian (WindowedMedian.fresh_object 3)
    = Undefined /\
  WindowedMedian.result WindowedMedian.getMedian (WindowedMedian.fresh_object 3)
    <> Throws EmptyStateError.
Proof. split; [reflexivity|split; [reflexivity|discriminate]]. Qed.

(** ** The query leaves the object alone *)

(** What holds of the [const] method: in a state reached by one insertion
    or more, a call of [getMedian] that returns hands back the very same
    object, and a second call returns the same value; it does return
    whenever the cursor is on the lower median. *)
Theorem getMedian_no_mutation (windowSize : Z) (vals : list Z) (s : WindowedMedian.t) :
  0 < windowSize <= INT_MAX -> vals <> [] ->
  WindowedMedian.run windowSize vals = Returns s ->
  (forall r s', WindowedMedian.getMedian s = Returns (r, s') ->
     s' = s /\ WindowedMedian.getMedian s' = Returns (r, s')) /\
  (WindowedMedian.lower_median s -> exists r, WindowedMedian.getMedian s = Returns (r, s)).
Proof.
  intros HW Hvals H; split.
  - intros r s' Hr. pose proof (getMedian_const _ _ _ Hr) as ->; auto.
  - intros Hlm. apply run_Returns in H; destruct H as (u & H).
    destruct (inserts_consistent _ _ _ _ (proj1 (fresh_object_invariant windowSize))
                HW ltac:(simpl; lia) H) as (Hc & _ & _).
    destruct (medians_agree s Hc Hlm) as (r & Hr & _); eauto.
Qed.

Lemma getMedian_no_mutation_witness :
  WindowedMedian.run 4 [9; 8; 7; 6; 5; 4] = Returns (state_after 4 [9; 8; 7; 6; 5; 4]) /\
  (forall r s',
     WindowedMedian.getMedian (state_after 4 [9; 8; 7; 6; 5; 4]) = Returns (r, s') ->
     s' = state_after 4 [9; 8; 7; 6; 5; 4] /\
     WindowedMedian.getMedian s' = Returns (r, s')) /\
  (WindowedMedian.lower_median (state_after 4 [9; 8; 7; 6; 5; 4]) ->
   exists r,
     WindowedMedian.getMedian (state_after 4 [9; 8; 7; 6; 5; 4]) =
       Returns (r, state_after 4 [9; 8; 7; 6; 5; 4])).
Proof.
  split; [vm_compute; reflexivity|].
  apply (getMedian_no_mutation 4 [9; 8; 7; 6; 5; 4]);
    [unfold INT_MAX; lia | discriminate | vm_compute; reflexivity].
Defined.

(** C9.  Window size 2, stream [3, 3, 3]: the run returns an object whose
    window is [3, 3], a state reached by insertions that holds two
    elements.  Its cursor is the node of identity 0, which the eviction of
    the third insertion erased: the multiset holds the nodes 1 and 2 only,
    reading through the cursor is undefined, and so is [getMedian].  The
    call returns no value, so there is neither an unchanged object
    afterwards nor a same value twice. *)
Theorem getMedian_undefined_after_eviction :
  WindowedMedian.run 2 [3; 3; 3] = Returns (state_after 2 [3; 3; 3]) /\
  WindowedMedian._window (state_after 2 [3; 3; 3]) = [3; 3] /\
  multiset.nodes (WindowedMedian._sortedValues (state_after 2 [3; 3; 3])) =
    [multiset.mkNode 1 3; multiset.mkNode 2 3] /\
  WindowedMedian._itMedian (state_after 2 [3; 3; 3]) = multiset.At 0 /\
  multiset.deref (multiset.At 0)
    (WindowedMedian._sortedValues (state_after 2 [3; 3; 3])) = None /\
  WindowedMedian.getMedian (state_after 2 [3; 3; 3]) = Undefined /\
  (forall r s',
     WindowedMedian.getMedian (state_after 2 [3; 3; 3]) <> Returns (r, s')).
Proof.
  assert (H : WindowedMedian.getMedian (state_after 2 [3; 3; 3]) = Undefined)
    by (vm_compute; reflexivity).
  repeat split; try (vm_compute; reflexivity).
  intros r s'; rewrite H; discriminate.
Qed.

(** ** Eviction with repeated values

    With an even window size the eviction takes place at an odd size.  When
    the value evicted is the one under the cursor and the node before the
    cursor holds it too, [eraseFromSorted] first steps the cursor back and
    then erases the first node of that value: either the node the cursor
    now denotes, or one before it.  The streams below are the shortest of
    each kind. *)

(** C1.  Window size 4, stream [3, 3, 3, 5, 7]: the window is [3, 3, 5, 7],
    [getMedianNaive] returns 4, [getMedian] returns 3, and the assertion of
    [test] fails. *)
Theorem median_differs_from_naive :
  WindowedMedian.run 4 [3; 3; 3; 5; 7] = Returns (state_after 4 [3; 3; 3; 5; 7]) /\
  WindowedMedian._window (state_after 4 [3; 3; 3; 5; 7]) = [3; 3; 5; 7] /\
  WindowedMedian.result WindowedMedian.getMedian (state_after 4 [3; 3; 3; 5; 7]) =
    Returns (Float32.of_int 3) /\
  WindowedMedian.result WindowedMedian.getMedianNaive (state_after 4 [3; 3; 3; 5; 7]) =
    Returns (Float32.of_int 4) /\
  Float32.eqb (Float32.of_int 3) (Float32.of_int 4) = false /\
  test [3; 3; 3; 5; 7] 4 = Aborted.
Proof. repeat split; vm_compute; reflexivity. Qed.

(** C2.  Window size 4, stream [3, 3, 3, 5, 7]: after the eviction the
    multiset has 4 nodes and the cursor is at sorted index 0, not at
    [(4 - 1) / 2 = 1]. *)
Theorem cursor_off_lower_median :
  WindowedMedian.run 4 [3; 3; 3; 5; 7] = Returns (state_after 4 [3; 3; 3; 5; 7]) /\
  multiset.size (WindowedMedian._sortedValues (state_after 4 [3; 3; 3; 5; 7])) = 4 /\
  WindowedMedian.cursor_rank (state_after 4 [3; 3; 3; 5; 7]) = Some 0%nat /\
  ((4 - 1) / 2)%nat = 1%nat /\
  ~ WindowedMedian.lower_median (state_after 4 [3; 3; 3; 5; 7]).
Proof.
  repeat split; try (vm_compute; reflexivity).
  intros (id & c & Hit & Hr & _).
  vm_compute in Hit; injection Hit as <-; vm_compute in Hr; discriminate.
Qed.

(** C3.  Window size 2, stream [3, 3, 3]: before the eviction the multiset
    holds three nodes of key 3 and the cursor is on the second; the cursor
    steps back to the first, which is the node [find] returns and [erase]
    removes.  After the call the cursor denotes no node of the multiset and
    reading through it is undefined. *)
Theorem eviction_erases_cursor_node :
  WindowedMedian.insertToSorted 3
    (WindowedMedian.mk 2 [3; 3; 3]
       (WindowedMedian._sortedValues (state_after 2 [3; 3]))
       (WindowedMedian._itMedian (state_after 2 [3; 3]))) =
    Returns (tt, before_eviction) /\
  multiset.keys (WindowedMedian._sortedValues before_eviction) = [3; 3; 3] /\
  WindowedMedian._itMedian before_eviction = multiset.At 1 /\
  multiset.prev (multiset.At 1) (WindowedMedian._sortedValues before_eviction) =
    Some (multiset.At 0) /\
  multiset.find 3 (WindowedMedian._sortedValues before_eviction) = multiset.At 0 /\
  WindowedMedian.run 2 [3; 3; 3] = Returns (state_after 2 [3; 3; 3]) /\
  WindowedMedian._itMedian (state_after 2 [3; 3; 3]) = multiset.At 0 /\
  WindowedMedian.cursor_rank (state_after 2 [3; 3; 3]) = None /\
  WindowedMedian.deref_itMedian (state_after 2 [3; 3; 3]) = Undefined.
Proof. repeat split; vm_compute; reflexivity. Qed.

(** C7.  Window size 2 and the value 3: after two copies [getMedian]
    returns 3; after the third copy the cursor denotes the node that was
    erased, and [getMedian] is undefined.  With window size 4 the same
    happens at the sixth copy. *)
Theorem median_of_copies_undefined :
  WindowedMedian.result WindowedMedian.getMedian (state_after 2 [3; 3]) =
    Returns (Float32.of_int 3) /\
  WindowedMedian.run 2 [3; 3; 3] = Returns (state_after 2 [3; 3; 3]) /\
  WindowedMedian.result WindowedMedian.getMedian (state_after 2 [3; 3; 3]) = Undefined /\
  WindowedMedian.run 4 [3; 3; 3; 3; 3; 3] = Returns (state_after 4 [3; 3; 3; 3; 3; 3]) /\
  WindowedMedian.result WindowedMedian.getMedian (state_after 4 [3; 3; 3; 3; 3; 3]) =
    Undefined.
Proof. repeat split; vm_compute; reflexivity. Qed.

(** C8.  Window size 4, stream [3, 3, 3, 5, 7]: the population 4 is even,
    the values at sorted indices 1 and 2 are 3 and 5, their mean in binary32
    is 4, and [getMedian] returns 3. *)
Theorem even_median_not_mean :
  WindowedMedian.run 4 [3; 3; 3; 5; 7] = Returns (state_after 4 [3; 3; 3; 5; 7]) /\
  multiset.keys (WindowedMedian._sortedValues (state_after 4 [3; 3; 3; 5; 7])) =
    [3; 3; 5; 7] /\
  WindowedMedian.mean 3 5 = Float32.of_int 4 /\
  WindowedMedian.result WindowedMedian.getMedian (state_after 4 [3; 3; 3; 5; 7]) =
    Returns (WindowedMedian.mean 3 3) /\
  Float32.eqb (WindowedMedian.mean 3 3) (WindowedMedian.mean 3 5) = false.
Proof. repeat split; vm_compute; reflexivity. Qed.

(** * Further properties *)

Module window_facts.
Import multiset multiset_facts WindowedMedian WindowedMedian_facts.

(** The window after a stream is what is left of [window ++ vals] once all
    but the last [_windowSize] values are dropped. *)
Lemma inserts_window (vals : list Z) (s s' : t) (u : unit) :
  consistent s -> 0 < _windowSize s <= INT_MAX ->
  Z.of_nat (length (_window s)) <= _windowSize s ->
  inserts vals s = Returns (u, s') ->
  _window s' =
    skipn (length (_window s ++ vals) - Z.to_nat (_windowSize s)) (_window s ++ vals).
Proof.
  revert s; induction vals as [|v vals IH]; intros s Hc HW Hlen H.
  - injection H as <- <-. rewrite app_nil_r.
    replace (length (_window s) - Z.to_nat (_windowSize s))%nat with 0%nat by lia.
    reflexivity.
  - simpl in H. apply bind_Returns_inv in H; destruct H as (u1 & s1 & H1 & H).
    destruct (insert_consistent _ _ _ _ Hc H1) as (Hc1 & HW1 & Hwin1).
    unfold evicts in Hwin1; rewrite to_size_t_small, Z.gtb_ltb in Hwin1 by lia.
    destruct (Z.ltb_spec (_windowSize s) (Z.of_nat (length (_window s)) + 1)) as [ev|ne].
    + destruct (_window s ++ [v]) as [|x w1] eqn:E.
      { destruct (_window s); discriminate. }
      assert (Hl : length (x :: w1) = S (length (_window s)))
        by (rewrite <- E, length_app; simpl; lia).
      simpl in Hl, Hwin1.
      rewrite (IH s1 Hc1 ltac:(rewrite HW1; lia) ltac:(rewrite HW1, Hwin1; lia) H).
      rewrite Hwin1, HW1.
      replace (_window s ++ v :: vals) with (x :: w1 ++ vals)
        by (change (x :: w1 ++ vals) with ((x :: w1) ++ vals);
            now rewrite <- E, <- app_assoc).
      replace (length (x :: w1 ++ vals) - Z.to_nat (_windowSize s))%nat
        with (S (length (w1 ++ vals) - Z.to_nat (_windowSize s)))
        by (cbn [length]; rewrite length_app; lia).
      reflexivity.
    + assert (Hl : length (_window s1) = S (length (_window s)))
        by (rewrite Hwin1, length_app; simpl; lia).
      rewrite (IH s1 Hc1 ltac:(rewrite HW1; lia) ltac:(rewrite HW1, Hl; lia) H).
      now rewrite Hwin1, HW1, <- app_assoc.
Qed.

Lemma sort_length (l : list Z) : length (ZSort.sort l) = length l.
Proof. symmetry; apply Permutation_length, ZSort.Permuted_sort. Qed.

Lemma sort_perm (l1 l2 : list Z) :
  Permutation l1 l2 -> ZSort.sort l1 = ZSort.sort l2.
Proof.
  intros H; apply sorted_perm_eq; try apply sort_sorted.
  now rewrite <- !ZSort.Permuted_sort.
Qed.

Lemma getMedianNaive_perm (s1 s2 : t) :
  Permutation (_window s1) (_window s2) ->
  result getMedianNaive s1 = result getMedianNaive s2.
Proof.
  intros HP. unfold result.
  rewrite !getMedianNaive_eq; cbn zeta.
  rewrite (sort_perm _ _ HP). unfold returns.
  destruct (nth_error _ (_ / 2)%nat); [|reflexivity].
  destruct (negb _); [reflexivity|].
  destruct (nth_error _ _); reflexivity.
Qed.

Lemma sort_singleton (v : Z) : ZSort.sort [v] = [v].
Proof.
  apply sorted_perm_eq; [apply sort_sorted|repeat constructor|].
  symmetry; apply ZSort.Permuted_sort.
Qed.

(** Counting in sorted lists. *)
Lemma filter_perm_length (f : Z -> bool) (l l' : list Z) :
  Permutation l l' -> length (filter f l) = length (filter f l').
Proof.
  induction 1 as [|x l l' HP IH|x y l|l l' l'' _ IH1 _ IH2]; simpl.
  - reflexivity.
  - destruct (f x); simpl; congruence.
  - destruct (f x), (f y); reflexivity.
  - congruence.
Qed.

Lemma sorted_split (l1 l2 : list Z) (a : Z) :
  StronglySorted Z.le (l1 ++ a :: l2) ->
  Forall (fun x => x <= a) l1 /\ Forall (fun x => a <= x) l2.
Proof.
  induction l1 as [|x l1 IH]; simpl; intros HS; inversion HS as [|? ? HS' Hx]; subst.
  - split; [constructor|assumption].
  - destruct (IH HS') as [H1 H2]; split; [|assumption].
    constructor; [|assumption].
    rewrite Forall_forall in Hx; apply Hx, in_elt.
Qed.

Lemma filter_all (f : Z -> bool) (l : list Z) :
  Forall (fun x => f x = true) l -> filter f l = l.
Proof.
  induction 1 as [|x l Hx _ IH]; simpl; [reflexivity|]. now rewrite Hx, IH.
Qed.

Lemma sorted_rank_counts (l : list Z) (i : nat) (a : Z) :
  StronglySorted Z.le l -> nth_error l i = Some a ->
  (i < length (filter (fun x => Z.leb x a) l))%nat /\
  (length l - i <= length (filter (fun x => Z.leb a x) l))%nat.
Proof.
  intros HS Hn.
  destruct (nth_error_split _ _ Hn) as (l1 & l2 & -> & <-).
  destruct (sorted_split _ _ _ HS) as [H1 H2].
  rewrite !filter_app, !length_app; simpl; rewrite Z.leb_refl; simpl.
  split.
  - rewrite (filter_all (fun x => Z.leb x a) l1); [lia|].
    eapply Forall_impl; [|exact H1]; intros x Hx; now apply Z.leb_le.
  - rewrite (filter_all (fun x => Z.leb a x) l2); [lia|].
    eapply Forall_impl; [|exact H2]; intros x Hx; now apply Z.leb_le.
Qed.

End window_facts.

Import window_facts.

(** The window holds the last [_windowSize] values of the stream, in arrival
    order, and [_windowSize] is the one given to the constructor. *)
Theorem window_is_stream_suffix (windowSize : Z) (vals : list Z) (s : WindowedMedian.t) :
  0 < windowSize <= INT_MAX ->
  WindowedMedian.run windowSize vals = Returns s ->
  WindowedMedian._window s = skipn (length vals - Z.to_nat windowSize) vals /\
  WindowedMedian._windowSize s = windowSize.
Proof.
  intros HW H. apply run_Returns in H; destruct H as (u & H).
  pose proof (proj1 (fresh_object_invariant windowSize)) as Hc.
  split.
  - now rewrite (inserts_window _ _ _ _ Hc HW ltac:(simpl; lia) H).
  - now destruct (inserts_consistent _ _ _ _ Hc HW ltac:(simpl; lia) H) as (_ & -> & _).
Qed.

Lemma window_is_stream_suffix_witness :
  0 < 3 <= INT_MAX /\
  WindowedMedian.run 3 [4; 3; 3; -5; 7] = Returns (state_after 3 [4; 3; 3; -5; 7]) /\
  WindowedMedian._window (state_after 3 [4; 3; 3; -5; 7]) =
    skipn (5 - Z.to_nat 3) [4; 3; 3; -5; 7] /\
  WindowedMedian._windowSize (state_after 3 [4; 3; 3; -5; 7]) = 3.
Proof.
  split; [unfold INT_MAX; lia|]; split; [vm_compute; reflexivity|].
  apply (window_is_stream_suffix 3 [4; 3; 3; -5; 7]);
    [unfold INT_MAX; lia | vm_compute; reflexivity].
Defined.

(** Until the window is full nothing is evicted, and whatever the parity of
    the window size and the repetitions in the stream, the run returns, the
    window is the stream, the cursor is on the lower median and the two
    medians are the same float. *)
Theorem filling_window_correct (windowSize : Z) (vals : list Z) :
  0 < windowSize <= INT_MAX -> vals <> [] ->
  Z.of_nat (length vals) <= windowSize ->
  exists s r,
    WindowedMedian.run windowSize vals = Returns s /\
    WindowedMedian._window s = vals /\
    WindowedMedian.cursor_rank s =
      Some ((length (multiset.nodes (WindowedMedian._sortedValues s)) - 1) / 2)%nat /\
    WindowedMedian.getMedian s = Returns (r, s) /\
    WindowedMedian.getMedianNaive s = Returns (r, s).
Proof.
  intros HW Hvals Hlen.
  destruct (inserts_no_eviction vals (WindowedMedian.fresh_object windowSize)
              (fresh_object_invariant windowSize)) as (s & H & Hinv & Hwin & _).
  { simpl; rewrite to_size_t_small by lia; lia. }
  destruct (invariant_correct windowSize vals s HW Hvals H Hinv) as (r & Hr).
  exists s, r; tauto.
Qed.

Lemma filling_window_correct_witness :
  exists s r,
    WindowedMedian.run 4 [3; 3; 3; 3] = Returns s /\
    WindowedMedian._window s = [3; 3; 3; 3] /\
    WindowedMedian.cursor_rank s =
      Some ((length (multiset.nodes (WindowedMedian._sortedValues s)) - 1) / 2)%nat /\
    WindowedMedian.getMedian s = Returns (r, s) /\
    WindowedMedian.getMedianNaive s = Returns (r, s).
Proof.
  apply (filling_window_correct 4 [3; 3; 3; 3]);
    [unfold INT_MAX; lia | discriminate | simpl; lia].
Defined.

(** [getMedianNaive] is undefined on an empty window and on no other: it
    needs no cursor, and a non-empty window always has its middle
    elements. *)
Theorem getMedianNaive_defined_iff (s : WindowedMedian.t) :
  (WindowedMedian._window s = [] <-> WindowedMedian.getMedianNaive s = Undefined) /\
  (WindowedMedian._window s <> [] <->
   exists r, WindowedMedian.getMedianNaive s = Returns (r, s)).
Proof.
  rewrite WindowedMedian_facts.getMedianNaive_eq; cbn zeta.
  pose proof (sort_length (WindowedMedian._window s)) as Hlen.
  set (l := ZSort.sort (WindowedMedian._window s)) in *.
  destruct (WindowedMedian._window s) as [|w ws] eqn:Ew.
  - destruct l; [|discriminate]. simpl.
    split; split; try tauto; try congruence. intros [r Hr]; discriminate.
  - simpl in Hlen.
    destruct (multiset_facts.nth_error_defined l (length l / 2)) as (a & ->);
      [WindowedMedian_facts.arith|].
    unfold WindowedMedian.returns.
    destruct (negb _) eqn:Epar.
    + split; split; try discriminate; eauto.
    + destruct (multiset_facts.nth_error_defined l (length l / 2 - 1)) as (b & ->);
        [WindowedMedian_facts.arith|].
      split; split; try discriminate; eauto.
Qed.

(** [getMedianNaive] reads the bag of the window, not the order of arrival:
    two objects whose windows are permutations of each other have the same
    naive median. *)
Theorem getMedianNaive_permutation (s1 s2 : WindowedMedian.t) :
  Permutation (WindowedMedian._window s1) (WindowedMedian._window s2) ->
  WindowedMedian.result WindowedMedian.getMedianNaive s1 =
  WindowedMedian.result WindowedMedian.getMedianNaive s2.
Proof.
  intros HP. unfold WindowedMedian.result.
  rewrite !WindowedMedian_facts.getMedianNaive_eq; cbn zeta.
  rewrite (sort_perm _ _ HP). unfold WindowedMedian.returns.
  destruct (nth_error _ (_ / 2)%nat); [|reflexivity].
  destruct (negb _); [reflexivity|].
  destruct (nth_error _ _); reflexivity.
Qed.

Lemma getMedianNaive_permutation_witness :
  Permutation [5; 1; 4; 2] [1; 2; 4; 5] /\
  WindowedMedian.result WindowedMedian.getMedianNaive
    (WindowedMedian.mk 4 [5; 1; 4; 2] multiset.empty multiset.Singular) =
  WindowedMedian.result WindowedMedian.getMedianNaive
    (WindowedMedian.mk 4 [1; 2; 4; 5] multiset.empty multiset.Singular).
Proof.
  assert (HP : Permutation [5; 1; 4; 2] [1; 2; 4; 5]).
  { apply (perm_trans (l' := [1; 5; 4; 2])); [apply perm_swap|].
    apply perm_skip.
    apply (perm_trans (l' := [5; 2; 4])); [apply perm_skip, perm_swap|].
    apply (perm_trans (l' := [2; 5; 4])); [apply perm_swap|].
    apply perm_skip, perm_swap. }
  split; [exact HP|].
  exact (getMedianNaive_permutation
           (WindowedMedian.mk 4 [5; 1; 4; 2] multiset.empty multiset.Singular)
           (WindowedMedian.mk 4 [1; 2; 4; 5] multiset.empty multiset.Singular) HP).
Defined.

(** With a window size of zero the first insertion is already undefined:
    the value is inserted and at once evicted at size 1, where
    [eraseFromSorted] decrements the cursor that stands on [begin()]. *)
Theorem zero_window_insert_undefined (v : Z) (vals : list Z) :
  WindowedMedian.insert v (WindowedMedian.fresh_object 0) = Undefined /\
  WindowedMedian.run 0 (v :: vals) = Undefined.
Proof.
  assert (H : WindowedMedian.insert v (WindowedMedian.fresh_object 0) = Undefined).
  { rewrite WindowedMedian_facts.insert_eq, WindowedMedian_facts.insertToSorted_eq.
    cbn -[WindowedMedian.eraseFromSorted].
    rewrite WindowedMedian_facts.eraseFromSorted_eq.
    cbn -[Z.leb Z.geb]. unfold WindowedMedian.move_before_erase.
    rewrite Z.geb_leb, Z.leb_refl. reflexivity. }
  split; [exact H|].
  unfold WindowedMedian.run, WindowedMedian.WindowedMedian.
  change (WindowedMedian.inserts (v :: vals))
    with (WindowedMedian.bind (WindowedMedian.insert v)
            (fun _ => WindowedMedian.inserts vals)).
  change (WindowedMedian.mk 0 [] multiset.empty multiset.Singular)
    with (WindowedMedian.fresh_object 0).
  unfold WindowedMedian.bind; now rewrite H.
Qed.

(** With a window size of one the median is the value inserted last. *)
Theorem window_one_median_is_last (vals : list Z) (v : Z) :
  exists s,
    WindowedMedian.run 1 (vals ++ [v]) = Returns s /\
    WindowedMedian._window s = [v] /\
    WindowedMedian.getMedian s = Returns (Float32.of_int v, s).
Proof.
  assert (HW : 0 < 1 <= INT_MAX) by (unfold INT_MAX; lia).
  assert (Hne : vals ++ [v] <> []) by (destruct vals; discriminate).
  destruct (WindowedMedian_facts.inserts_odd_window (vals ++ [v])
              (WindowedMedian.fresh_object 1)) as (s & H & Hinv);
    auto using fresh_object_invariant; [simpl; lia|].
  pose proof (inserts_window _ _ _ _ (proj1 (fresh_object_invariant 1)) HW
                ltac:(simpl; lia) H) as Hwin.
  simpl in Hwin. rewrite length_app in Hwin; simpl in Hwin.
  replace (length vals + 1 - Pos.to_nat 1)%nat with (length vals) in Hwin by lia.
  rewrite skipn_app, skipn_all, Nat.sub_diag in Hwin; simpl in Hwin.
  destruct (invariant_correct 1 (vals ++ [v]) s HW Hne H Hinv) as (r & Hrun & _ & Hr & Hn).
  exists s; split; [assumption|]; split; [assumption|].
  rewrite WindowedMedian_facts.getMedianNaive_eq, Hwin, sort_singleton in Hn.
  simpl in Hn. injection Hn as <-; assumption.
Qed.

(** With an odd window size the median does not depend on the values that
    have left the window: the stream and its last [windowSize] values give
    the same median. *)
Theorem odd_window_forgets_history (windowSize : Z) (vals : list Z) :
  0 < windowSize <= INT_MAX -> windowSize mod 2 = 1 -> vals <> [] ->
  exists s1 s2 r,
    WindowedMedian.run windowSize vals = Returns s1 /\
    WindowedMedian.run windowSize (skipn (length vals - Z.to_nat windowSize) vals) =
      Returns s2 /\
    WindowedMedian.getMedian s1 = Returns (r, s1) /\
    WindowedMedian.getMedian s2 = Returns (r, s2).
Proof.
  intros HW Hodd Hvals.
  set (last := skipn (length vals - Z.to_nat windowSize) vals).
  assert (Hlast : last <> []).
  { intros E; apply (f_equal (@length Z)) in E; unfold last in E.
    rewrite length_skipn in E; destruct vals; [congruence|cbn [length] in E; lia]. }
  pose proof (proj1 (fresh_object_invariant windowSize)) as Hc.
  destruct (WindowedMedian_facts.inserts_odd_window vals
              (WindowedMedian.fresh_object windowSize)) as (s1 & H1 & Hinv1);
    auto using fresh_object_invariant; [simpl; lia|].
  destruct (WindowedMedian_facts.inserts_odd_window last
              (WindowedMedian.fresh_object windowSize)) as (s2 & H2 & Hinv2);
    auto using fresh_object_invariant; [simpl; lia|].
  pose proof (inserts_window _ _ _ _ Hc HW ltac:(simpl; lia) H1) as Hw1.
  pose proof (inserts_window _ _ _ _ Hc HW ltac:(simpl; lia) H2) as Hw2.
  simpl in Hw1, Hw2.
  replace (length last - Z.to_nat windowSize)%nat with 0%nat in Hw2
    by (unfold last; rewrite length_skipn; lia).
  simpl in Hw2; fold last in Hw1.
  destruct (invariant_correct _ _ s1 HW Hvals H1 Hinv1) as (r1 & Hrun1 & _ & Hr1 & Hn1).
  destruct (invariant_correct _ _ s2 HW Hlast H2 Hinv2) as (r2 & Hrun2 & _ & Hr2 & Hn2).
  pose proof (getMedianNaive_perm s1 s2) as Heq.
  unfold WindowedMedian.result in Heq; rewrite Hn1, Hn2, Hw1, Hw2 in Heq.
  injection (Heq (Permutation_refl _)) as ->.
  exists s1, s2, r2; auto.
Qed.

Lemma odd_window_forgets_history_witness :
  exists s1 s2 r,
    WindowedMedian.run 3 [4; 3; 3; -5; 7] = Returns s1 /\
    WindowedMedian.run 3 (skipn (length [4; 3; 3; -5; 7] - Z.to_nat 3) [4; 3; 3; -5; 7]) =
      Returns s2 /\
    WindowedMedian.getMedian s1 = Returns (r, s1) /\
    WindowedMedian.getMedian s2 = Returns (r, s2).
Proof.
  apply (odd_window_forgets_history 3 [4; 3; 3; -5; 7]);
    [unfold INT_MAX; lia | reflexivity | discriminate].
Defined.

(** With an odd window size and an odd population the float returned is the
    conversion of a value of the window that is a median of it: more than
    half of the window is at most that value, and more than half is at
    least that value. *)
Theorem odd_window_median_is_middle (windowSize : Z) (vals : list Z) :
  0 < windowSize <= INT_MAX -> windowSize mod 2 = 1 ->
  Z.min (Z.of_nat (length vals)) windowSize mod 2 = 1 ->
  exists s a,
    WindowedMedian.run windowSize vals = Returns s /\
    WindowedMedian.getMedian s = Returns (Float32.of_int a, s) /\
    In a (WindowedMedian._window s) /\
    (length (WindowedMedian._window s) <
       2 * length (filter (fun x => Z.leb x a) (WindowedMedian._window s)))%nat /\
    (length (WindowedMedian._window s) <
       2 * length (filter (fun x => Z.leb a x) (WindowedMedian._window s)))%nat.
Proof.
  intros HW Hodd Hpar.
  pose proof (fresh_object_invariant windowSize) as [Hc0 _].
  destruct (WindowedMedian_facts.inserts_odd_window vals
              (WindowedMedian.fresh_object windowSize)) as (s & H & Hinv);
    auto using fresh_object_invariant; [simpl; lia|].
  destruct (inserts_consistent _ _ _ _ Hc0 HW ltac:(simpl; lia) H) as (_ & _ & Hlen).
  simpl in Hlen. destruct Hinv as [Hc [Hnil|Hlm]].
  { rewrite <- (consistent_length _ Hc), Hnil in Hlen; simpl in Hlen.
    rewrite <- Hlen in Hpar; discriminate. }
  destruct (getMedian_value s (proj1 Hc) Hlm) as (a & Ha & Hv). cbn zeta in Ha, Hv.
  pose proof (consistent_length _ Hc) as Hkl.
  unfold multiset.keys in Ha, Hv; rewrite length_map, Hkl in Ha, Hv.
  destruct (Nat.eqb_spec (length (WindowedMedian._window s) mod 2) 0) as [ev|od];
    [exfalso; WindowedMedian_facts.arith|].
  destruct Hc as [(_ & _ & HS) HP].
  destruct (sorted_rank_counts _ _ _ (keys_sorted _ HS) Ha) as [Hle Hge].
  rewrite length_map, Hkl in Hge.
  unfold multiset.keys in HP.
  rewrite (filter_perm_length (fun x => Z.leb x a) _ _ HP) in Hle.
  rewrite (filter_perm_length (fun x => Z.leb a x) _ _ HP) in Hge.
  exists s, a; split; [apply run_Returns; eauto|]; split; [assumption|].
  split; [apply (Permutation_in _ HP), (nth_error_In _ _ Ha)|].
  split; WindowedMedian_facts.arith.
Qed.

Lemma odd_window_median_is_middle_witness :
  exists s a,
    WindowedMedian.run 3 [4; 3; 3; -5; 7] = Returns s /\
    WindowedMedian.getMedian s = Returns (Float32.of_int a, s) /\
    In a (WindowedMedian._window s) /\
    (length (WindowedMedian._window s) <
       2 * length (filter (fun x => Z.leb x a) (WindowedMedian._window s)))%nat /\
    (length (WindowedMedian._window s) <
       2 * length (filter (fun x => Z.leb a x) (WindowedMedian._window s)))%nat.
Proof.
  apply (odd_window_median_is_middle 3 [4; 3; 3; -5; 7]);
    [unfold INT_MAX; lia | reflexivity | reflexivity].
Defined.

(** ** The cursor, method by method *)

(** [insertToSorted] keeps the cursor on the lower median, whatever the value
    inserted and the size: on an empty multiset it sets the cursor, on any
    other it moves it by at most one node, and the call always returns. *)
Theorem insertToSorted_keeps_lower_median (v : Z) (s : WindowedMedian.t) :
  multiset.well_formed (WindowedMedian._sortedValues s) ->
  multiset.nodes (WindowedMedian._sortedValues s) = [] \/ WindowedMedian.lower_median s ->
  exists it,
    WindowedMedian.insertToSorted v s =
      Returns (tt, WindowedMedian.mk (WindowedMedian._windowSize s)
                     (WindowedMedian._window s)
                     (multiset.insert v (WindowedMedian._sortedValues s)) it) /\
    WindowedMedian.lower_median
      (WindowedMedian.mk (WindowedMedian._windowSize s) (WindowedMedian._window s)
         (multiset.insert v (WindowedMedian._sortedValues s)) it).
Proof. apply insertToSorted_cursor. Qed.

Lemma insertToSorted_keeps_lower_median_witness :
  exists it,
    WindowedMedian.insertToSorted 7 (WindowedMedian.fresh_object 3) =
      Returns (tt, WindowedMedian.mk 3 [] (multiset.insert 7 multiset.empty) it) /\
    WindowedMedian.lower_median
      (WindowedMedian.mk 3 [] (multiset.insert 7 multiset.empty) it).
Proof.
  apply (insertToSorted_keeps_lower_median 7 (WindowedMedian.fresh_object 3));
    [apply empty_well_formed | left; reflexivity].
Defined.

(** [eraseFromSorted] on a multiset of even size that holds the value keeps
    the cursor on the lower median and erases the first node of the value,
    repeated values included. *)
Theorem eraseFromSorted_even_keeps_lower_median (v : Z) (s : WindowedMedian.t) :
  multiset.well_formed (WindowedMedian._sortedValues s) ->
  WindowedMedian.lower_median s ->
  In v (multiset.keys (WindowedMedian._sortedValues s)) ->
  Z.of_nat (length (multiset.nodes (WindowedMedian._sortedValues s))) mod 2 = 0 ->
  exists it ms',
    multiset.erase (multiset.find v (WindowedMedian._sortedValues s))
                   (WindowedMedian._sortedValues s) = Some ms' /\
    WindowedMedian.eraseFromSorted v s =
      Returns (tt, WindowedMedian.mk (WindowedMedian._windowSize s)
                     (WindowedMedian._window s) ms' it) /\
    WindowedMedian.lower_median
      (WindowedMedian.mk (WindowedMedian._windowSize s) (WindowedMedian._window s) ms' it).
Proof. apply eraseFromSorted_cursor. Qed.

(** [eraseFromSorted] on a multiset of odd size, three or more, keeps the
    cursor on the lower median when the keys are all distinct. *)
Theorem eraseFromSorted_distinct_keeps_lower_median (v : Z) (s : WindowedMedian.t) :
  multiset.well_formed (WindowedMedian._sortedValues s) ->
  WindowedMedian.lower_median s ->
  In v (multiset.keys (WindowedMedian._sortedValues s)) ->
  NoDup (multiset.keys (WindowedMedian._sortedValues s)) ->
  Z.of_nat (length (multiset.nodes (WindowedMedian._sortedValues s))) mod 2 = 1 ->
  (1 < length (multiset.nodes (WindowedMedian._sortedValues s)))%nat ->
  exists it ms',
    multiset.erase (multiset.find v (WindowedMedian._sortedValues s))
                   (WindowedMedian._sortedValues s) = Some ms' /\
    WindowedMedian.eraseFromSorted v s =
      Returns (tt, WindowedMedian.mk (WindowedMedian._windowSize s)
                     (WindowedMedian._window s) ms' it) /\
    WindowedMedian.lower_median
      (WindowedMedian.mk (WindowedMedian._windowSize s) (WindowedMedian._window s) ms' it).
Proof. apply eraseFromSorted_cursor_distinct. Qed.



(** Whenever the cursor is on the lower median, [getMedian] returns the
    conversion of the key at sorted index [(n - 1) / 2] for an odd size
    [n], and [0.5f * a + 0.5f * b] for the keys [a] and [b] at sorted
    indices [n / 2 - 1] and [n / 2] for an even size; the integers are
    converted before any arithmetic is done. *)
Theorem getMedian_reads_the_middle (s : WindowedMedian.t) :
  multiset.well_formed (WindowedMedian._sortedValues s) ->
  WindowedMedian.lower_median s ->
  exists a,
    nth_error (multiset.keys (WindowedMedian._sortedValues s))
      ((length (multiset.keys (WindowedMedian._sortedValues s)) - 1) / 2)%nat = Some a /\
    if Nat.eqb (length (multiset.keys (WindowedMedian._sortedValues s)) mod 2)%nat 0%nat
    then exists b,
      nth_error (multiset.keys (WindowedMedian._sortedValues s))
        (length (multiset.keys (WindowedMedian._sortedValues s)) / 2)%nat = Some b /\
      WindowedMedian.getMedian s =
        Returns (Float32.add (Float32.mul Float32.half (Float32.of_int a))
                             (Float32.mul Float32.half (Float32.of_int b)), s)
    else WindowedMedian.getMedian s = Returns (Float32.of_int a, s).
Proof. apply getMedian_value. Qed.

Lemma eraseFromSorted_even_keeps_lower_median_witness :
  exists it ms',
    multiset.erase
      (multiset.find 1 (WindowedMedian._sortedValues ascending_four))
      (WindowedMedian._sortedValues ascending_four) = Some ms' /\
    WindowedMedian.eraseFromSorted 1 ascending_four =
      Returns (tt, WindowedMedian.mk
                     (WindowedMedian._windowSize ascending_four)
                     (WindowedMedian._window ascending_four) ms' it) /\
    WindowedMedian.lower_median
      (WindowedMedian.mk (WindowedMedian._windowSize ascending_four)
         (WindowedMedian._window ascending_four) ms' it).
Proof.
  apply (eraseFromSorted_even_keeps_lower_median 1 ascending_four).
  - change (multiset.well_formed
              (multiset.insert 4 (multiset.insert 3
                 (multiset.insert 2 (multiset.insert 1 multiset.empty))))).
    repeat apply insert_well_formed; apply empty_well_formed.
  - exists 1%nat, (multiset.mkNode 1 2); split; [reflexivity|split; reflexivity].
  - left; reflexivity.
  - reflexivity.
Defined.

Lemma eraseFromSorted_distinct_keeps_lower_median_witness :
  exists it ms',
    multiset.erase
      (multiset.find 2 (WindowedMedian._sortedValues ascending_three))
      (WindowedMedian._sortedValues ascending_three) = Some ms' /\
    WindowedMedian.eraseFromSorted 2 ascending_three =
      Returns (tt, WindowedMedian.mk
                     (WindowedMedian._windowSize ascending_three)
                     (WindowedMedian._window ascending_three) ms' it) /\
    WindowedMedian.lower_median
      (WindowedMedian.mk (WindowedMedian._windowSize ascending_three)
         (WindowedMedian._window ascending_three) ms' it).
Proof.
  apply (eraseFromSorted_distinct_keeps_lower_median 2 ascending_three).
  - change (multiset.well_formed
              (multiset.insert 3 (multiset.insert 2 (multiset.insert 1 multiset.empty)))).
    repeat apply insert_well_formed; apply empty_well_formed.
  - exists 1%nat, (multiset.mkNode 1 2); split; [reflexivity|split; reflexivity].
  - right; left; reflexivity.
  - change (NoDup [1; 2; 3]); repeat constructor; simpl; lia.
  - reflexivity.
  - change (1 < 3)%nat; lia.
Defined.

Lemma getMedian_reads_the_middle_witness :
  exists a,
    nth_error (multiset.keys (WindowedMedian._sortedValues ascending_four))
      ((length (multiset.keys
                  (WindowedMedian._sortedValues ascending_four)) - 1) / 2)%nat
      = Some a /\
    if Nat.eqb (length (multiset.keys
                  (WindowedMedian._sortedValues ascending_four)) mod 2)%nat
               0%nat
    then exists b,
      nth_error (multiset.keys (WindowedMedian._sortedValues ascending_four))
        (length (multiset.keys
                   (WindowedMedian._sortedValues ascending_four)) / 2)%nat
        = Some b /\
      WindowedMedian.getMedian ascending_four =
        Returns (Float32.add (Float32.mul Float32.half (Float32.of_int a))
                             (Float32.mul Float32.half (Float32.of_int b)),
                 ascending_four)
    else WindowedMedian.getMedian ascending_four =
           Returns (Float32.of_int a, ascending_four).
Proof.
  apply (getMedian_reads_the_middle ascending_four).
  - change (multiset.well_formed
              (multiset.insert 4 (multiset.insert 3
                 (multiset.insert 2 (multiset.insert 1 multiset.empty))))).
    repeat apply insert_well_formed; apply empty_well_formed.
  - exists 1%nat, (multiset.mkNode 1 2); split; [reflexivity|split; reflexivity].
Defined.

(** ** binary32 on integers

    The conversion of a non-zero [int] is a normal float, with a mantissa of
    24 digits; halving it and adding a float to itself are then exact. *)

Module Float32_facts.

Lemma digits2_log2 (p : positive) : Zpos (digits2_pos p) = Z.log2 (Zpos p) + 1.
Proof.
  assert (H : forall q, digits2_pos q = Pos.size q) by (induction q; simpl; congruence).
  rewrite H; destruct p; simpl; lia.
Qed.

Lemma digits2_bounds (p : positive) :
  2 ^ (Zpos (digits2_pos p) - 1) <= Zpos p < 2 ^ Zpos (digits2_pos p).
Proof.
  rewrite digits2_log2.
  replace (Z.log2 (Zpos p) + 1 - 1) with (Z.log2 (Zpos p)) by lia.
  apply (Z.log2_spec (Zpos p)); lia.
Qed.

Lemma digits2_unique (p : positive) (n : Z) :
  2 ^ (n - 1) <= Zpos p < 2 ^ n -> Zpos (digits2_pos p) = n.
Proof.
  intros H. rewrite digits2_log2.
  assert (0 < n).
  { destruct H as [_ H].
    destruct n as [|q|q]; [simpl in H; lia | lia | rewrite Z.pow_neg_r in H; lia]. }
  rewrite (Z.log2_unique (Zpos p) (n - 1)); try lia.
  replace (Z.succ (n - 1)) with n by lia. assumption.
Qed.

Lemma shr_1_m (mrs : shr_record) :
  0 <= shr_m mrs -> shr_m (shr_1 mrs) = shr_m mrs / 2.
Proof.
  destruct mrs as [m r s]; simpl; intros H.
  destruct m as [|[p|p|]|p]; try lia; simpl.
  - reflexivity.
  - rewrite Pos2Z.inj_xI. apply (Z.div_unique _ _ _ 1); lia.
  - rewrite Pos2Z.inj_xO. apply (Z.div_unique _ _ _ 0); lia.
  - reflexivity.
Qed.

Lemma shr_iter_m (n : positive) (mrs : shr_record) :
  0 <= shr_m mrs ->
  shr_m (iter_pos shr_1 n mrs) = shr_m mrs / 2 ^ Zpos n.
Proof.
  revert mrs; induction n as [n IH|n IH|]; intros mrs H; simpl iter_pos.
  - assert (H1 : 0 <= shr_m (shr_1 mrs)) by (rewrite shr_1_m by lia; apply Z.div_pos; lia).
    assert (H2 : 0 <= shr_m (iter_pos shr_1 n (shr_1 mrs)))
      by (rewrite IH by lia; apply Z.div_pos; lia).
    rewrite IH, IH, shr_1_m by lia.
    rewrite !Z.div_div by lia. f_equal.
    rewrite Pos2Z.inj_xI, <- !Z.pow_add_r, <- Z.pow_succ_r by lia. f_equal; lia.
  - assert (H2 : 0 <= shr_m (iter_pos shr_1 n mrs))
      by (rewrite IH by lia; apply Z.div_pos; lia).
    rewrite IH, IH by lia.
    rewrite !Z.div_div by lia. f_equal.
    rewrite Pos2Z.inj_xO, <- !Z.pow_add_r by lia. f_equal; lia.
  - now apply shr_1_m.
Qed.

Lemma fexp_normal (e : Z) : -125 <= e -> fexp 24 128 e = e - 24.
Proof. unfold fexp, emin; lia. Qed.

Lemma shr_record_of_loc_m (m : Z) (l : location) : shr_m (shr_record_of_loc m l) = m.
Proof. destruct l as [|[]]; reflexivity. Qed.

Lemma shr_fexp_m (p : positive) (e : Z) (l : location) :
  snd (shr_fexp 24 128 (Zpos p) e l) =
    e + Z.max (fexp 24 128 (Zpos (digits2_pos p) + e) - e) 0 /\
  shr_m (fst (shr_fexp 24 128 (Zpos p) e l)) =
    Zpos p / 2 ^ Z.max (fexp 24 128 (Zpos (digits2_pos p) + e) - e) 0.
Proof.
  unfold shr_fexp, shr; simpl Zdigits2.
  destruct (fexp 24 128 (Zpos (digits2_pos p) + e) - e) as [|k|k]; simpl fst; simpl snd.
  - rewrite shr_record_of_loc_m, Z.max_id, Z.div_1_r; lia.
  - rewrite shr_iter_m, shr_record_of_loc_m by (rewrite shr_record_of_loc_m; lia).
    rewrite Z.max_l by lia; auto.
  - rewrite shr_record_of_loc_m, Z.max_r, Z.div_1_r by lia; lia.
Qed.

Lemma round_nearest_even_bounds (m : Z) (l : location) :
  m <= round_nearest_even m l <= m + 1.
Proof. destruct l as [|[]]; simpl; try lia. destruct (Z.even m); lia. Qed.

Lemma binary_round_aux_canonical (sx : bool) (p : positive) (ex : Z) (lx : location) :
  24 <= Zpos (digits2_pos p) ->
  -149 <= ex + Zpos (digits2_pos p) - 24 ->
  ex + Zpos (digits2_pos p) - 23 <= 104 ->
  exists m e,
    binary_round_aux 24 128 sx (Zpos p) ex lx = S754_finite sx m e /\
    Zpos (digits2_pos m) = 24 /\
    ex + Zpos (digits2_pos p) - 24 <= e <= ex + Zpos (digits2_pos p) - 23.
Proof.
  intros Hd Hlo Hhi. remember (Zpos (digits2_pos p)) as d eqn:Ed.
  unfold binary_round_aux.
  destruct (shr_fexp_m p ex lx) as [He1 Hm1].
  destruct (shr_fexp 24 128 (Zpos p) ex lx) as [mrs' e'].
  cbn [fst snd] in He1, Hm1. rewrite <- Ed in He1, Hm1.
  rewrite fexp_normal in He1, Hm1 by lia.
  replace (Z.max (d + ex - 24 - ex) 0) with (d - 24) in He1, Hm1 by lia.
  pose proof (digits2_bounds p) as Hp; rewrite <- Ed in Hp.
  assert (Hm' : 2 ^ 23 <= shr_m mrs' < 2 ^ 24).
  { rewrite Hm1; split.
    - apply Z.div_le_lower_bound; [apply Z.pow_pos_nonneg; lia|].
      rewrite <- Z.pow_add_r by lia. replace (d - 24 + 23) with (d - 1) by lia. lia.
    - apply Z.div_lt_upper_bound; [apply Z.pow_pos_nonneg; lia|].
      rewrite <- Z.pow_add_r by lia. replace (d - 24 + 24) with d by lia. lia. }
  pose proof (round_nearest_even_bounds (shr_m mrs') (loc_of_shr_record mrs')) as Hr.
  destruct (round_nearest_even (shr_m mrs') (loc_of_shr_record mrs')) as [|q|q] eqn:Eq;
    try (change (2 ^ 23) with 8388608 in Hm'; lia).
  destruct (shr_fexp_m q e' loc_Exact) as [He2 Hm2].
  destruct (shr_fexp 24 128 (Zpos q) e' loc_Exact) as [mrs'' e''].
  cbn [fst snd] in He2, Hm2.
  destruct (Z.eq_dec (Zpos q) (2 ^ 24)) as [Hq|Hq].
  - assert (Hdq : Zpos (digits2_pos q) = 25).
    { apply digits2_unique; rewrite Hq; change (25 - 1) with 24; split; [lia|].
      apply Z.pow_lt_mono_r; lia. }
    rewrite Hdq, fexp_normal in He2, Hm2 by lia.
    replace (Z.max (25 + e' - 24 - e') 0) with 1 in He2, Hm2 by lia.
    rewrite Hq in Hm2. change (2 ^ 24 / 2 ^ 1) with 8388608 in Hm2.
    rewrite Hm2. destruct (Z.leb_spec e'' (128 - 24)); [|lia].
    exists 8388608%positive, e''; split; [reflexivity|]; split; [reflexivity|lia].
  - assert (Hdq : Zpos (digits2_pos q) = 24).
    { apply digits2_unique; change (24 - 1) with 23; lia. }
    rewrite Hdq, fexp_normal in He2, Hm2 by lia.
    replace (Z.max (24 + e' - 24 - e') 0) with 0 in He2, Hm2 by lia.
    rewrite Z.div_1_r in Hm2.
    rewrite Hm2. destruct (Z.leb_spec e'' (128 - 24)); [|lia].
    exists q, e''; split; [reflexivity|]; split; [assumption|lia].
Qed.

Lemma digits2_iter_xO (p k : positive) :
  Zpos (digits2_pos (Pos.iter xO p k)) = Zpos (digits2_pos p) + Zpos k.
Proof.
  induction k as [|k IH] using Pos.peano_ind.
  - simpl; lia.
  - rewrite Pos.iter_succ; simpl digits2_pos. lia.
Qed.

Lemma binary_round_canonical (sx : bool) (p : positive) :
  Zpos p <= 2 ^ 31 ->
  exists m e,
    binary_round 24 128 sx p 0 = S754_finite sx m e /\
    Zpos (digits2_pos m) = 24 /\ -23 <= e <= 9.
Proof.
  intros Hp. pose proof (digits2_bounds p) as Hb.
  assert (Hd : 1 <= Zpos (digits2_pos p) <= 32).
  { split; [lia|].
    assert (H : Zpos (digits2_pos p) - 1 < 32); [|lia].
    apply (Z.pow_lt_mono_r_iff 2); lia. }
  unfold binary_round, shl_align. rewrite fexp_normal by lia.
  destruct (Zpos (digits2_pos p) + 0 - 24 - 0) as [|k|k] eqn:Ek.
  - destruct (binary_round_aux_canonical sx p 0 loc_Exact) as (m & e & H & Hm & He);
      try lia.
    exists m, e; repeat split; try assumption; lia.
  - destruct (binary_round_aux_canonical sx p 0 loc_Exact) as (m & e & H & Hm & He);
      try lia.
    exists m, e; repeat split; try assumption; lia.
  - pose proof (digits2_iter_xO p k) as Hk.
    destruct (binary_round_aux_canonical sx (Pos.iter xO p k)
                (Zpos (digits2_pos p) + 0 - 24) loc_Exact) as (m & e & H & Hm & He);
      try lia.
    exists m, e; repeat split; try assumption; lia.
Qed.

Lemma of_int_canonical (z : Z) :
  z <> 0 -> - 2 ^ 31 <= z <= 2 ^ 31 - 1 ->
  exists m e,
    Float32.of_int z = S754_finite (z <? 0) m e /\
    Zpos (digits2_pos m) = 24 /\ -23 <= e <= 9.
Proof.
  intros Hz Hr. unfold Float32.of_int, binary_normalize.
  change Float32.prec with 24; change Float32.emax with 128.
  destruct z as [|p|p]; [congruence| |]; apply binary_round_canonical; lia.
Qed.

Lemma mul_half_canonical (s : bool) (m : positive) (e : Z) :
  Zpos (digits2_pos m) = 24 -> -148 <= e <= 105 ->
  Float32.mul Float32.half (S754_finite s m e) = S754_finite s m (e - 1).
Proof.
  intros Hm He. unfold Float32.mul, Float32.half, SFmul, binary_round_aux.
  change Float32.prec with 24; change Float32.emax with 128.
  change (xorb false s) with s.
  change (Z.pos (8388608 * m)) with (Z.pos (Pos.iter xO m 23)).
  assert (E1 : shr_fexp 24 128 (Z.pos (Pos.iter xO m 23)) (-24 + e) loc_Exact =
               ({| shr_m := Zpos m; shr_r := false; shr_s := false |}, e - 1)).
  { unfold shr_fexp.
    change (Zdigits2 (Z.pos (Pos.iter xO m 23)))
      with (Z.pos (digits2_pos (Pos.iter xO m 23))).
    rewrite digits2_iter_xO, Hm, fexp_normal by lia.
    replace (24 + 23 + (-24 + e) - 24 - (-24 + e)) with 23 by lia.
    unfold shr. replace (-24 + e + 23) with (e - 1) by lia. reflexivity. }
  rewrite E1. cbn [shr_m loc_of_shr_record round_nearest_even].
  assert (E2 : shr_fexp 24 128 (Z.pos m) (e - 1) loc_Exact =
               ({| shr_m := Zpos m; shr_r := false; shr_s := false |}, e - 1)).
  { unfold shr_fexp. cbn [Zdigits2]. rewrite Hm, fexp_normal by lia.
    replace (24 + (e - 1) - 24 - (e - 1)) with 0 by lia. reflexivity. }
  rewrite E2. cbn [shr_m].
  destruct (Z.leb_spec (e - 1) (128 - 24)); [reflexivity|lia].
Qed.

Lemma add_self_canonical (s : bool) (m : positive) (e : Z) :
  Zpos (digits2_pos m) = 24 -> -149 <= e <= 103 ->
  Float32.add (S754_finite s m e) (S754_finite s m e) = S754_finite s m (e + 1).
Proof.
  intros Hm He. unfold Float32.add, SFadd.
  change Float32.prec with 24; change Float32.emax with 128.
  rewrite Z.min_id. unfold shl_align at 1 2.
  rewrite Z.sub_diag; cbn [fst].
  assert (Hsum : cond_Zopp s (Z.pos m) + cond_Zopp s (Z.pos m) =
                 cond_Zopp s (Z.pos m~0)).
  { destruct s; simpl; now rewrite Pos.add_diag. }
  rewrite Hsum.
  assert (E : binary_round 24 128 s m~0 e = S754_finite s m (e + 1)).
  { unfold binary_round, shl_align. cbn [digits2_pos].
    rewrite Pos2Z.inj_succ, Hm, fexp_normal by lia.
    replace (Z.succ 24 + e - 24 - e) with 1 by lia.
    unfold binary_round_aux.
    assert (E1 : shr_fexp 24 128 (Z.pos m~0) e loc_Exact =
                 ({| shr_m := Zpos m; shr_r := false; shr_s := false |}, e + 1)).
    { unfold shr_fexp. cbn [Zdigits2 digits2_pos].
      rewrite Pos2Z.inj_succ, Hm, fexp_normal by lia.
      replace (Z.succ 24 + e - 24 - e) with 1 by lia. reflexivity. }
    rewrite E1. cbn [shr_m loc_of_shr_record round_nearest_even].
    assert (E2 : shr_fexp 24 128 (Z.pos m) (e + 1) loc_Exact =
                 ({| shr_m := Zpos m; shr_r := false; shr_s := false |}, e + 1)).
    { unfold shr_fexp. cbn [Zdigits2]. rewrite Hm, fexp_normal by lia.
      replace (24 + (e + 1) - 24 - (e + 1)) with 0 by lia. reflexivity. }
    rewrite E2. cbn [shr_m].
    destruct (Z.leb_spec (e + 1) (128 - 24)); [reflexivity|lia]. }
  destruct s; simpl cond_Zopp; unfold binary_normalize; exact E.
Qed.

Lemma mean_same (z : Z) : - 2 ^ 31 <= z <= 2 ^ 31 - 1 -> WindowedMedian.mean z z = Float32.of_int z.
Proof.
  intros Hz. destruct (Z.eq_dec z 0) as [->|Hne]; [reflexivity|].
  unfold WindowedMedian.mean.
  destruct (of_int_canonical z Hne Hz) as (m & e & -> & Hm & He).
  rewrite mul_half_canonical, add_self_canonical by (assumption || lia).
  f_equal; lia.
Qed.

Lemma shr_fexp_nonneg (m e : Z) (l : location) :
  0 <= m -> 0 <= shr_m (fst (shr_fexp 24 128 m e l)).
Proof.
  intros Hm. unfold shr_fexp, shr.
  destruct (fexp 24 128 (Zdigits2 m + e) - e) as [|k|k]; cbn [fst];
    rewrite ?shr_iter_m, shr_record_of_loc_m; try (rewrite shr_record_of_loc_m); lia.
Qed.

Lemma binary_round_aux_not_nan (sx : bool) (mx ex : Z) (lx : location) :
  0 <= mx -> binary_round_aux 24 128 sx mx ex lx <> S754_nan.
Proof.
  intros Hm. unfold binary_round_aux.
  pose proof (shr_fexp_nonneg mx ex lx Hm) as H1.
  destruct (shr_fexp 24 128 mx ex lx) as [mrs' e']; cbn [fst] in H1.
  pose proof (round_nearest_even_bounds (shr_m mrs') (loc_of_shr_record mrs')) as Hr.
  pose proof (shr_fexp_nonneg (round_nearest_even (shr_m mrs') (loc_of_shr_record mrs'))
                e' loc_Exact ltac:(lia)) as H2.
  destruct (shr_fexp 24 128 _ e' loc_Exact) as [mrs'' e'']; cbn [fst] in H2.
  destruct (shr_m mrs'') as [|q|q]; try discriminate; [|lia].
  destruct (_ <=? _); discriminate.
Qed.

Lemma binary_normalize_not_nan (m e : Z) (s : bool) :
  binary_normalize 24 128 m e s <> S754_nan.
Proof.
  destruct m as [|p|p]; simpl; [discriminate| |];
    unfold binary_round; destruct (shl_align _ _ _) as [mz ez];
    apply binary_round_aux_not_nan; lia.
Qed.

Lemma add_not_nan (x y : spec_float) :
  finite_or_zero x -> finite_or_zero y -> Float32.add x y <> S754_nan.
Proof.
  destruct x as [[|]|[|]| |sx mx ex], y as [[|]|[|]| |sy my ey]; simpl;
    try tauto; try discriminate; intros _ _; apply binary_normalize_not_nan.
Qed.

Lemma of_int_finite_or_zero (z : Z) :
  - 2 ^ 31 <= z <= 2 ^ 31 - 1 -> finite_or_zero (Float32.mul Float32.half (Float32.of_int z)).
Proof.
  intros Hz. destruct (Z.eq_dec z 0) as [->|Hne]; [exact I|].
  destruct (of_int_canonical z Hne Hz) as (m & e & -> & Hm & He).
  rewrite mul_half_canonical by (assumption || lia). exact I.
Qed.

Lemma mean_not_nan (a b : Z) :
  - 2 ^ 31 <= a <= 2 ^ 31 - 1 -> - 2 ^ 31 <= b <= 2 ^ 31 - 1 -> WindowedMedian.mean a b <> S754_nan.
Proof. intros Ha Hb; apply add_not_nan; now apply of_int_finite_or_zero. Qed.

Lemma of_int_not_nan (z : Z) : Float32.of_int z <> S754_nan.
Proof. apply binary_normalize_not_nan. Qed.

Lemma eqb_refl (x : Float32.float) : x <> S754_nan -> Float32.eqb x x = true.
Proof.
  destruct x as [s|s| |s m e]; intros H; try reflexivity; [destruct s; reflexivity|congruence|].
  unfold Float32.eqb, SFeqb, SFcompare. rewrite Z.compare_refl, Pos.compare_cont_refl.
  destruct s; reflexivity.
Qed.

Lemma binary_round_normal (sx : bool) (p : positive) (ex : Z) :
  -100 <= ex <= 20 -> Zpos (digits2_pos p) <= 80 ->
  normal_or_zero (binary_round 24 128 sx p ex).
Proof.
  intros He Hd.
  assert (Hd1 : 1 <= Zpos (digits2_pos p)) by lia.
  unfold binary_round, shl_align. rewrite fexp_normal by lia.
  destruct (Zpos (digits2_pos p) + ex - 24 - ex) as [|k|k] eqn:Ek.
  - destruct (binary_round_aux_canonical sx p ex loc_Exact) as (m & e & -> & Hm & Hb);
      try lia. simpl; lia.
  - destruct (binary_round_aux_canonical sx p ex loc_Exact) as (m & e & -> & Hm & Hb);
      try lia. simpl; lia.
  - pose proof (digits2_iter_xO p k) as Hk.
    destruct (binary_round_aux_canonical sx (Pos.iter xO p k)
                (Zpos (digits2_pos p) + ex - 24) loc_Exact) as (m & e & -> & Hm & Hb);
      try lia. simpl; lia.
Qed.

Lemma shl_align_digits (m : positive) (e ez : Z) :
  ez <= e ->
  Zpos (digits2_pos (fst (shl_align m e ez))) = Zpos (digits2_pos m) + (e - ez).
Proof.
  intros H. unfold shl_align.
  destruct (ez - e) as [|k|k] eqn:Ek; cbn [fst]; try lia.
  rewrite digits2_iter_xO; lia.
Qed.

Lemma digits2_le (p : positive) (n : Z) : Zpos p < 2 ^ n -> Zpos (digits2_pos p) <= n.
Proof.
  intros H. pose proof (digits2_bounds p) as [Hb _].
  destruct (Z.le_gt_cases (Zpos (digits2_pos p)) n) as [|Hgt]; [assumption|exfalso].
  assert (2 ^ n <= 2 ^ (Zpos (digits2_pos p) - 1)); [|lia].
  apply Z.pow_le_mono_r; lia.
Qed.

Lemma add_normal (sx sy : bool) (mx my : positive) (ex ey : Z) :
  Zpos (digits2_pos mx) = 24 -> Zpos (digits2_pos my) = 24 ->
  -24 <= ex <= 8 -> -24 <= ey <= 8 ->
  normal_or_zero (Float32.add (S754_finite sx mx ex) (S754_finite sy my ey)).
Proof.
  intros Hmx Hmy Hex Hey. unfold Float32.add, SFadd.
  change Float32.prec with 24; change Float32.emax with 128. cbn zeta.
  remember (Z.min ex ey) as ez eqn:Eez.
  assert (Hez : ez <= ex /\ ez <= ey /\ -24 <= ez) by lia.
  pose proof (shl_align_digits mx ex ez ltac:(lia)) as Hdx.
  pose proof (shl_align_digits my ey ez ltac:(lia)) as Hdy.
  pose proof (digits2_bounds (fst (shl_align mx ex ez))) as [_ Hbx].
  pose proof (digits2_bounds (fst (shl_align my ey ez))) as [_ Hby].
  rewrite Hdx, Hmx in Hbx. rewrite Hdy, Hmy in Hby.
  assert (Hpx : 2 ^ (24 + (ex - ez)) <= 2 ^ 56) by (apply Z.pow_le_mono_r; lia).
  assert (Hpy : 2 ^ (24 + (ey - ez)) <= 2 ^ 56) by (apply Z.pow_le_mono_r; lia).
  remember (Zpos (fst (shl_align mx ex ez))) as X eqn:EX.
  remember (Zpos (fst (shl_align my ey ez))) as Y eqn:EY.
  assert (HX : 0 < X) by (subst X; lia).
  assert (HY : 0 < Y) by (subst Y; lia).
  assert (Hsum : - 2 ^ 57 < cond_Zopp sx X + cond_Zopp sy Y < 2 ^ 57).
  { change (2 ^ 57) with (2 * 2 ^ 56). destruct sx, sy; unfold cond_Zopp; lia. }
  destruct (cond_Zopp sx X + cond_Zopp sy Y) as [|p|p]; unfold binary_normalize.
  - exact I.
  - apply binary_round_normal; [lia|].
    apply Z.le_trans with 57; [apply digits2_le|]; lia.
  - apply binary_round_normal; [lia|].
    apply Z.le_trans with 57; [apply digits2_le|]; lia.
Qed.

Lemma of_int_normal (z : Z) :
  - 2 ^ 31 <= z <= 2 ^ 31 - 1 -> normal_or_zero (Float32.of_int z).
Proof.
  intros Hz. destruct (Z.eq_dec z 0) as [->|Hne]; [exact I|].
  destruct (of_int_canonical z Hne Hz) as (m & e & -> & Hm & He). simpl; lia.
Qed.

Lemma mean_normal (a b : Z) :
  - 2 ^ 31 <= a <= 2 ^ 31 - 1 -> - 2 ^ 31 <= b <= 2 ^ 31 - 1 ->
  normal_or_zero (WindowedMedian.mean a b).
Proof.
  intros Ha Hb. unfold WindowedMedian.mean.
  assert (H : forall z, - 2 ^ 31 <= z <= 2 ^ 31 - 1 ->
            Float32.mul Float32.half (Float32.of_int z) = S754_zero false \/
            exists s m e, Float32.mul Float32.half (Float32.of_int z) = S754_finite s m e /\
                          Zpos (digits2_pos m) = 24 /\ -24 <= e <= 8).
  { intros z Hz. destruct (Z.eq_dec z 0) as [->|Hne]; [left; reflexivity|right].
    destruct (of_int_canonical z Hne Hz) as (m & e & -> & Hm & He).
    rewrite mul_half_canonical by (assumption || lia).
    exists (z <? 0), m, (e - 1); repeat split; try assumption; lia. }
  destruct (H a Ha) as [->|(sa & ma & ea & -> & Hma & Hea)];
    destruct (H b Hb) as [->|(sb & mb & eb & -> & Hmb & Heb)].
  - exact I.
  - simpl; lia.
  - simpl; lia.
  - now apply add_normal.
Qed.

End Float32_facts.

(** ** The test driver *)

Module driver_facts.
Import multiset multiset_facts WindowedMedian WindowedMedian_facts window_facts.

Lemma In_skipn_In (n : nat) (l : list Z) (x : Z) : In x (skipn n l) -> In x l.
Proof.
  intros H; rewrite <- (firstn_skipn n l); apply in_or_app; now right.
Qed.

(** One insertion of a harmless stream. *)
Lemma insert_step (v : Z) (vals : list Z) (s : t) :
  invariant s -> 0 < _windowSize s <= INT_MAX -> eviction_safe s (v :: vals) ->
  exists s1,
    insert v s = Returns (tt, s1) /\ invariant s1 /\ lower_median s1 /\
    _windowSize s1 = _windowSize s /\ eviction_safe s1 vals /\
    (forall x, In x (_window s1) -> In x (_window s) \/ x = v).
Proof.
  intros Hinv HW Hsafe.
  destruct (insert_cursor v s Hinv) as (s1 & H1 & Hinv1).
  { unfold evicts; rewrite to_size_t_small, Z.gtb_ltb, Z.ltb_lt by lia.
    intros Hgt Hpar. destruct Hsafe as [[Hodd Hlen]|Hnd]; [exfalso; arith|].
    split; [|lia].
    rewrite (app_assoc _ [v] vals) in Hnd; exact (NoDup_app_remove_r _ _ Hnd). }
  destruct (insert_consistent _ _ _ _ (proj1 Hinv) H1) as (_ & HW1 & Hwin1).
  unfold evicts in Hwin1; rewrite to_size_t_small, Z.gtb_ltb in Hwin1 by lia.
  assert (Hne : _window s1 <> []).
  { rewrite Hwin1.
    destruct (Z.ltb_spec (_windowSize s) (Z.of_nat (length (_window s)) + 1)).
    - destruct (_window s) as [|w [|w' ws]]; simpl in *; try lia; discriminate.
    - destruct (_window s); discriminate. }
  exists s1; split; [assumption|]; split; [assumption|]; split; [|split; [assumption|split]].
  - destruct Hinv1 as [Hc1 [Hnil|Hlm]]; [|assumption].
    exfalso; apply Hne. pose proof (consistent_length _ Hc1) as Hl.
    rewrite Hnil in Hl; destruct (_window s1); [reflexivity|discriminate].
  - unfold eviction_safe; rewrite HW1, Hwin1.
    destruct Hsafe as [[Hodd Hlen]|Hnd]; [left; split; [assumption|]|right].
    + destruct (Z.ltb_spec (_windowSize s) (Z.of_nat (length (_window s)) + 1)).
      * destruct (_window s); simpl; [lia|]; rewrite length_app; simpl in *; lia.
      * rewrite length_app; simpl; lia.
    + rewrite (app_assoc _ [v] vals) in Hnd.
      destruct (Z.ltb_spec (_windowSize s) (Z.of_nat (length (_window s)) + 1));
        [|assumption].
      destruct (_window s ++ [v]); [assumption|]. simpl in *; now inversion Hnd.
  - intros x Hx; rewrite Hwin1 in Hx.
    assert (Hx' : In x (_window s ++ [v])).
    { destruct (Z.ltb_spec (_windowSize s) (Z.of_nat (length (_window s)) + 1));
        [|assumption].
      destruct (_window s ++ [v]); [assumption|now right]. }
    apply in_app_or in Hx'; destruct Hx' as [Hx'|[<-|Hf]]; [now left|now right|destruct Hf].
Qed.

(** On an object in its invariant the two medians are one float, which is
    either the conversion of a value of the window or the mean of two. *)
Lemma medians_shape (s : t) :
  consistent s -> lower_median s ->
  exists r,
    getMedian s = Returns (r, s) /\ getMedianNaive s = Returns (r, s) /\
    ((exists a, In a (_window s) /\ r = Float32.of_int a) \/
     (exists a b, In a (_window s) /\ In b (_window s) /\ r = mean a b)).
Proof.
  intros Hc Hlm.
  destruct (medians_agree s Hc Hlm) as (r & Hr & Hn).
  destruct (getMedian_value s (proj1 Hc) Hlm) as (a & Ha & Hv); cbn zeta in Ha, Hv.
  assert (Hin : forall i x, nth_error (keys (_sortedValues s)) i = Some x ->
                            In x (_window s)).
  { intros i x Hx; apply (Permutation_in _ (proj2 Hc)), (nth_error_In _ _ Hx). }
  exists r; split; [assumption|]; split; [assumption|].
  destruct (Nat.eqb _ _).
  - destruct Hv as (b & Hb & Hv). rewrite Hv in Hr; injection Hr as <-.
    right; exists a, b; eauto.
  - rewrite Hv in Hr; injection Hr as <-. left; exists a; eauto.
Qed.

Lemma test_loop_passes (vals : list Z) (s : t) :
  invariant s -> 0 < _windowSize s <= INT_MAX -> eviction_safe s vals ->
  Forall (fun v => INT_MIN <= v <= INT_MAX) (_window s) ->
  Forall (fun v => INT_MIN <= v <= INT_MAX) vals ->
  exists s', test_loop vals s = Returns (tt, s').
Proof.
  revert s; induction vals as [|v vals IH]; intros s Hinv HW Hsafe Hw Hv.
  - exists s; reflexivity.
  - destruct (insert_step v vals s Hinv HW Hsafe)
      as (s1 & H1 & Hinv1 & Hlm1 & HW1 & Hsafe1 & Hin1).
    inversion Hv as [|? ? Hv0 Hvs]; subst.
    assert (Hw1 : Forall (fun v => INT_MIN <= v <= INT_MAX) (_window s1)).
    { rewrite Forall_forall in *; intros x Hx.
      destruct (Hin1 x Hx) as [Hx0 | ->]; auto. }
    destruct (medians_shape s1 (proj1 Hinv1) Hlm1) as (r & Hr & Hn & Hshape).
    assert (Hnan : r <> S754_nan).
    { rewrite Forall_forall in Hw1. unfold INT_MIN, INT_MAX in Hw1.
      destruct Hshape as [(a & Ha & ->)|(a & b & Ha & Hb & ->)].
      - apply Float32_facts.of_int_not_nan.
      - apply Float32_facts.mean_not_nan; auto. }
    destruct (IH s1 Hinv1) as (s' & H'); auto; try (rewrite HW1; assumption).
    exists s'. simpl test_loop. unfold bind at 1; rewrite H1.
    unfold bind at 1; rewrite Hr. unfold bind at 1; rewrite Hn.
    now rewrite (Float32_facts.eqb_refl r Hnan).
Qed.

Lemma inserts_safe (vals : list Z) (s : t) :
  invariant s -> 0 < _windowSize s <= INT_MAX -> eviction_safe s vals ->
  exists s',
    inserts vals s = Returns (tt, s') /\ invariant s' /\
    (forall x, In x (_window s') -> In x (_window s) \/ In x vals).
Proof.
  revert s; induction vals as [|v vals IH]; intros s Hinv HW Hsafe.
  - exists s; split; [reflexivity|]; auto.
  - destruct (insert_step v vals s Hinv HW Hsafe)
      as (s1 & H1 & Hinv1 & Hlm1 & HW1 & Hsafe1 & Hin1).
    destruct (IH s1 Hinv1) as (s' & H' & Hinv' & Hin'); auto;
      try (rewrite HW1; assumption).
    exists s'; split; [simpl; unfold bind; now rewrite H1|]; split; [assumption|].
    intros x Hx. destruct (Hin' x Hx) as [Hx1|Hx1]; [|right; now right].
    destruct (Hin1 x Hx1) as [Hx0 | ->]; [now left|right; now left].
Qed.

Lemma test_safe (vals : list Z) (windowSize : Z) :
  0 < windowSize <= INT_MAX ->
  Forall (fun v => INT_MIN <= v <= INT_MAX) vals ->
  windowSize mod 2 = 1 \/ NoDup vals ->
  test vals windowSize = Returns tt.
Proof.
  intros HW Hv Hsafe. unfold test, WindowedMedian.WindowedMedian.
  assert (Hs : eviction_safe (fresh_object windowSize) vals).
  { destruct Hsafe as [Hodd|Hnd]; [left; split; [assumption|simpl; lia]|right; assumption]. }
  destruct (test_loop_passes vals (fresh_object windowSize)
              (fresh_object_invariant windowSize) HW Hs (Forall_nil _) Hv) as (s' & H).
  unfold fresh_object in H; now rewrite H.
Qed.

Lemma random_arguments (RAND_MAX : Z) (rand : nat -> Z) (k : nat) :
  32767 <= RAND_MAX <= INT_MAX ->
  (forall i, 0 <= rand i <= RAND_MAX) ->
  1 <= random_windowSize RAND_MAX rand k <= 11 /\
  (1 <= length (random_vals RAND_MAX rand k) <= 21)%nat /\
  Forall (fun v => - RAND_MAX <= v <= 0) (random_vals RAND_MAX rand k).
Proof.
  unfold INT_MAX; intros HR Hrand.
  assert (Hu : forall z, 0 <= z < 2 ^ 32 -> to_unsigned z = z)
    by (intros z Hz; apply Z.mod_small; lia).
  assert (Hq : forall r c d, 0 <= r <= RAND_MAX -> 0 < d ->
                 RAND_MAX < d * (c + 1) -> 0 <= r / d <= c).
  { intros r c d Hr Hd Hc; split; [apply Z.div_pos; lia|].
    assert (r / d < c + 1); [|lia]. apply Z.div_lt_upper_bound; lia. }
  assert (H20 : 0 < (RAND_MAX + 5) / 20 /\ RAND_MAX < (RAND_MAX + 5) / 20 * 21).
  { pose proof (Z.div_mod (RAND_MAX + 5) 20 ltac:(lia)).
    pose proof (Z.mod_pos_bound (RAND_MAX + 5) 20 ltac:(lia)). lia. }
  assert (H10 : 0 < (RAND_MAX + 3) / 10 /\ RAND_MAX < (RAND_MAX + 3) / 10 * 11).
  { pose proof (Z.div_mod (RAND_MAX + 3) 10 ltac:(lia)).
    pose proof (Z.mod_pos_bound (RAND_MAX + 3) 10 ltac:(lia)). lia. }
  assert (Hcount : 1 <= draw_count RAND_MAX (rand k) <= 21).
  { unfold draw_count. rewrite (Hu (rand k)), (Hu (RAND_MAX + 5)) by (specialize (Hrand k); lia).
    pose proof (Hq (rand k) 20 _ (Hrand k) (proj1 H20) (proj2 H20)).
    rewrite Hu; lia. }
  assert (Hwin : 1 <= draw_window RAND_MAX (rand (S k)) <= 11).
  { unfold draw_window.
    rewrite (Hu (rand (S k))), (Hu (RAND_MAX + 3)) by (specialize (Hrand (S k)); lia).
    pose proof (Hq (rand (S k)) 10 _ (Hrand (S k)) (proj1 H10) (proj2 H10)).
    rewrite Hu; lia. }
  split; [|split].
  - unfold random_windowSize, to_int.
    rewrite Z.mod_small by lia.
    destruct (Z.ltb_spec (draw_window RAND_MAX (rand (S k))) (2 ^ 31)); lia.
  - unfold random_vals; rewrite length_map, length_seq; lia.
  - unfold random_vals; apply Forall_map, Forall_forall; intros i _.
    unfold draw_value; specialize (Hrand (S (S k) + i)%nat); lia.
Qed.

Lemma random_cases_return (RAND_MAX : Z) (rand : nat -> Z) (count i : nat) :
  32767 <= RAND_MAX <= INT_MAX ->
  (forall k, 0 <= rand k <= RAND_MAX) ->
  (forall j, (j < count)%nat ->
     random_windowSize RAND_MAX rand (case_start RAND_MAX rand (i + j)) mod 2 = 1 \/
     NoDup (random_vals RAND_MAX rand (case_start RAND_MAX rand (i + j)))) ->
  random_cases RAND_MAX rand count (case_start RAND_MAX rand i) = Returns tt.
Proof.
  intros HR Hrand; revert i; induction count as [|count IH]; intros i Hsafe.
  - reflexivity.
  - cbn [random_cases]. unfold random_case.
    destruct (random_arguments RAND_MAX rand (case_start RAND_MAX rand i) HR Hrand)
      as (HW & _ & Hv).
    rewrite test_safe.
    + apply (IH (S i)). intros j Hj.
      replace (S i + j)%nat with (i + S j)%nat by lia. apply Hsafe; lia.
    + unfold INT_MAX in *; lia.
    + eapply Forall_impl; [|exact Hv]; unfold INT_MIN, INT_MAX in *; intros; simpl in *; lia.
    + specialize (Hsafe 0%nat ltac:(lia)). now rewrite Nat.add_0_r in Hsafe.
Qed.

(** What an iterator reads is a key of the container. *)
Lemma deref_In (it : iterator) (ms : multiset.t) (v : Z) :
  deref it ms = Some v -> In v (keys ms).
Proof.
  unfold deref, node_at, keys. destruct it as [|id|]; try discriminate.
  destruct (rank id (nodes ms)) as [i|]; [|discriminate].
  destruct (nth_error (nodes ms) i) as [c|] eqn:E; [|discriminate].
  intros H; injection H as <-. apply in_map. eapply nth_error_In; exact E.
Qed.

(** Whatever [getMedian] returns is the conversion of a key or the mean of
    two keys. *)
Lemma getMedian_of_keys (s s' : t) (r : Float32.float) :
  getMedian s = Returns (r, s') ->
  (exists a, In a (keys (_sortedValues s)) /\ r = Float32.of_int a) \/
  (exists a b, In a (keys (_sortedValues s)) /\ In b (keys (_sortedValues s)) /\
               r = mean a b).
Proof.
  rewrite getMedian_eq; cbn zeta; unfold returns.
  destruct (negb _);
    destruct (deref (_itMedian s) (_sortedValues s)) as [a|] eqn:Ea; try discriminate.
  - intros H; injection H as <- _. left; exists a.
    split; [eapply deref_In; eassumption|reflexivity].
  - destruct (next _ _) as [it|]; [|discriminate].
    destruct (deref it _) as [b|] eqn:Eb; [|discriminate].
    intros H; injection H as <- _. right; exists a, b.
    repeat split; eapply deref_In; eassumption.
Qed.

End driver_facts.

(** The assertion of [test] holds after every insertion, and [test] returns,
    for every stream of [int] values when the window size is odd or when no
    value of the stream occurs twice. *)
Theorem test_passes (vals : list Z) (windowSize : Z) :
  0 < windowSize <= INT_MAX ->
  Forall (fun v => INT_MIN <= v <= INT_MAX) vals ->
  windowSize mod 2 = 1 \/ NoDup vals ->
  test vals windowSize = Returns tt.
Proof. apply driver_facts.test_safe. Qed.

Lemma test_passes_witness :
  test [9; 8; 7; 6; 5; 4; 3; 2; 1] 4 = Returns tt.
Proof.
  apply (test_passes [9; 8; 7; 6; 5; 4; 3; 2; 1] 4).
  - unfold INT_MAX; lia.
  - repeat constructor; unfold INT_MIN, INT_MAX; lia.
  - right; repeat constructor; simpl; lia.
Defined.

(** A stream of copies of one [int] value has that value as its median, for
    every odd window size, and for every window size as long as the window
    is not full. *)
Theorem median_of_copies (windowSize v : Z) (n : nat) :
  0 < windowSize <= INT_MAX -> INT_MIN <= v <= INT_MAX -> (0 < n)%nat ->
  windowSize mod 2 = 1 \/ Z.of_nat n <= windowSize ->
  exists s,
    WindowedMedian.run windowSize (repeat v n) = Returns s /\
    WindowedMedian.getMedian s = Returns (Float32.of_int v, s).
Proof.
  intros HW Hv Hn Hcase.
  assert (Hne : repeat v n <> []) by (destruct n; [lia|discriminate]).
  assert (exists s,
            WindowedMedian.inserts (repeat v n) (WindowedMedian.fresh_object windowSize) =
              Returns (tt, s) /\
            WindowedMedian.invariant s /\
            forall x, In x (WindowedMedian._window s) -> x = v) as (s & H & Hinv & Hin).
  { destruct Hcase as [Hodd|Hlen].
    - destruct (driver_facts.inserts_safe (repeat v n)
                  (WindowedMedian.fresh_object windowSize)) as (s & H & Hinv & Hin);
        auto using fresh_object_invariant; [left; split; [assumption|simpl; lia]|].
      exists s; repeat split; try assumption; try apply Hinv.
      intros x Hx; destruct (Hin x Hx) as [[]|Hr]; exact (repeat_spec _ _ _ Hr).
    - destruct (inserts_no_eviction (repeat v n) (WindowedMedian.fresh_object windowSize)
                  (fresh_object_invariant windowSize)) as (s & H & Hinv & Hwin & _).
      { simpl; rewrite to_size_t_small, repeat_length by lia; lia. }
      exists s; repeat split; try assumption; try apply Hinv.
      intros x Hx; rewrite Hwin in Hx; exact (repeat_spec _ _ _ Hx). }
  destruct (invariant_correct windowSize _ s HW Hne H Hinv) as (r & Hrun & Hrank & Hr & _).
  assert (Hlm : WindowedMedian.lower_median s).
  { destruct Hinv as [_ [Hnil|Hlm]]; [|assumption].
    unfold WindowedMedian.cursor_rank in Hrank.
    destruct (WindowedMedian._itMedian s); try discriminate.
    rewrite Hnil in Hrank; discriminate. }
  destruct (driver_facts.medians_shape s (proj1 Hinv) Hlm) as (r' & Hr' & _ & Hshape).
  exists s; split; [assumption|]. rewrite Hr'; do 2 f_equal.
  destruct Hshape as [(a & Ha & ->)|(a & b & Ha & Hb & ->)].
  - now rewrite (Hin a Ha).
  - rewrite (Hin a Ha), (Hin b Hb).
    apply Float32_facts.mean_same. unfold INT_MIN, INT_MAX in Hv; lia.
Qed.

Lemma median_of_copies_witness :
  exists s,
    WindowedMedian.run 3 (repeat 16777217 5) = Returns s /\
    WindowedMedian.getMedian s = Returns (Float32.of_int 16777217, s).
Proof.
  apply (median_of_copies 3 16777217 5);
    [unfold INT_MAX; lia | unfold INT_MIN, INT_MAX; lia | lia | left; reflexivity].
Defined.

(** ** The random cases of [main] *)

(** Every random case calls [test] with a window size between 1 and 11 and
    with a stream of 1 to 21 values, none of them positive: the constructor
    is never given a window size it cannot handle, and no subtraction
    overflows. *)
Theorem random_case_arguments (RAND_MAX : Z) (rand : nat -> Z) (k : nat) :
  32767 <= RAND_MAX <= INT_MAX ->
  (forall i, 0 <= rand i <= RAND_MAX) ->
  1 <= random_windowSize RAND_MAX rand k <= 11 /\
  (1 <= length (random_vals RAND_MAX rand k) <= 21)%nat /\
  Forall (fun v => - RAND_MAX <= v <= 0) (random_vals RAND_MAX rand k).
Proof. apply driver_facts.random_arguments. Qed.

Lemma random_case_arguments_witness :
  1 <= random_windowSize GLIBC_RAND_MAX (constant_rand 1234567890) 0 <= 11 /\
  (1 <= length (random_vals GLIBC_RAND_MAX (constant_rand 1234567890) 0) <= 21)%nat /\
  Forall (fun v => - GLIBC_RAND_MAX <= v <= 0)
         (random_vals GLIBC_RAND_MAX (constant_rand 1234567890) 0).
Proof.
  apply (random_case_arguments GLIBC_RAND_MAX (constant_rand 1234567890) 0);
    [unfold GLIBC_RAND_MAX, INT_MAX; lia
    | intros i; unfold constant_rand, GLIBC_RAND_MAX; lia].
Defined.

(** [main] returns 0 whenever each of its 92 random cases has an odd window
    size or a stream without repeated values; the cases are those the loop
    runs, case [i] starting at the call of [rand] where case [i - 1]
    stopped. *)
Theorem main_returns (RAND_MAX : Z) (rand : nat -> Z) :
  32767 <= RAND_MAX <= INT_MAX ->
  (forall k, 0 <= rand k <= RAND_MAX) ->
  (forall i, (i < 92)%nat ->
     random_windowSize RAND_MAX rand (case_start RAND_MAX rand i) mod 2 = 1 \/
     NoDup (random_vals RAND_MAX rand (case_start RAND_MAX rand i))) ->
  main RAND_MAX rand = Returns 0.
Proof.
  intros HR Hrand Hsafe. unfold main.
  assert (Hfixed : tests fixed_streams = Returns tt) by (vm_compute; reflexivity).
  rewrite Hfixed.
  pose proof (driver_facts.random_cases_return RAND_MAX rand 92 0 HR Hrand Hsafe) as H.
  cbn [case_start] in H. now rewrite H.
Qed.

Lemma main_returns_witness :
  random_windowSize GLIBC_RAND_MAX (scripted_rand [214748364; 214748365; 5; 6; 7]) 0 = 2 /\
  random_vals GLIBC_RAND_MAX (scripted_rand [214748364; 214748365; 5; 6; 7]) 0 =
    [-2147483642; -2147483641; -2147483640] /\
  main GLIBC_RAND_MAX (scripted_rand [214748364; 214748365; 5; 6; 7]) = Returns 0.
Proof.
  split; [vm_compute; reflexivity|]; split; [vm_compute; reflexivity|].
  apply (main_returns GLIBC_RAND_MAX (scripted_rand [214748364; 214748365; 5; 6; 7])).
  - unfold GLIBC_RAND_MAX, INT_MAX; lia.
  - intros k; unfold scripted_rand, GLIBC_RAND_MAX.
    do 5 (destruct k as [|k]; [simpl; lia|]). destruct k; simpl; lia.
  - intros i Hi. destruct i as [|i].
    + right. vm_compute. repeat constructor; simpl; lia.
    + left. do 91 (destruct i as [|i]; [vm_compute; reflexivity|]). lia.
Defined.

(** Nothing in [main] keeps the random cases away from the flaw of the
    eviction: there are results of [rand()], all within [0, RAND_MAX], for
    which a random case has window size 4 and the stream
    [-7, -7, -7, -5, -3], and the assertion of [test] fails. *)
Theorem main_may_abort :
  exists rand,
    (forall i, 0 <= rand i <= GLIBC_RAND_MAX) /\
    random_windowSize GLIBC_RAND_MAX rand 0 = 4 /\
    random_vals GLIBC_RAND_MAX rand 0 = [-7; -7; -7; -5; -3] /\
    main GLIBC_RAND_MAX rand = Aborted.
Proof.
  exists (scripted_rand [429496728; 644245095; 2147483640; 2147483640; 2147483640;
                         2147483642; 2147483644]).
  split; [|repeat split; vm_compute; reflexivity].
  intros i; unfold scripted_rand, GLIBC_RAND_MAX.
  do 7 (destruct i as [|i]; [simpl; lia|]). destruct i; simpl; lia.
Qed.

(** Whatever the window size and the repetitions in the stream, a median
    that [getMedian] returns after a stream of [int] values is a zero or a
    normal binary32 number, never a NaN, an infinity or a subnormal. *)
Theorem getMedian_result_is_normal (windowSize : Z) (vals : list Z)
    (s s' : WindowedMedian.t) (r : Float32.float) :
  0 < windowSize <= INT_MAX ->
  Forall (fun v => INT_MIN <= v <= INT_MAX) vals ->
  WindowedMedian.run windowSize vals = Returns s ->
  WindowedMedian.getMedian s = Returns (r, s') ->
  normal_or_zero r.
Proof.
  intros HW Hvals Hrun Hmed.
  apply run_Returns in Hrun; destruct Hrun as (u & Hrun).
  pose proof (proj1 (fresh_object_invariant windowSize)) as Hc.
  pose proof (inserts_window _ _ _ _ Hc HW ltac:(simpl; lia) Hrun) as Hwin.
  destruct (inserts_consistent _ _ _ _ Hc HW ltac:(simpl; lia) Hrun) as ((_ & Hperm) & _).
  assert (Hin : forall a, In a (multiset.keys (WindowedMedian._sortedValues s)) ->
                          - 2 ^ 31 <= a <= 2 ^ 31 - 1).
  { intros a Ha. apply (Permutation_in _ Hperm) in Ha. rewrite Hwin in Ha.
    apply driver_facts.In_skipn_In in Ha. simpl in Ha.
    rewrite Forall_forall in Hvals. specialize (Hvals a Ha).
    unfold INT_MIN, INT_MAX in Hvals; lia. }
  destruct (driver_facts.getMedian_of_keys _ _ _ Hmed) as [(a & Ha & ->)|(a & b & Ha & Hb & ->)].
  - apply Float32_facts.of_int_normal; auto.
  - apply Float32_facts.mean_normal; auto.
Qed.

Lemma getMedian_result_is_normal_witness :
  normal_or_zero (S754_finite false 12582912 (-22)).
Proof.
  apply (getMedian_result_is_normal 4 [3; 3; 3; 5; 7]
           (state_after 4 [3; 3; 3; 5; 7]) (state_after 4 [3; 3; 3; 5; 7])).
  - unfold INT_MAX; lia.
  - repeat constructor; unfold INT_MIN, INT_MAX; lia.
  - vm_compute; reflexivity.
  - vm_compute; reflexivity.
Defined.
